(** * Character co-occurrence network of [main.py]

    A shallow embedding of the graph builder
    [create_data_for_character_appearance_network], of the metrics computed
    by [plot_degree_distribution] and of the join performed by [main],
    together with the part of [networkx.Graph] that these functions call
    ([add_node], [add_edge], item access, [degree], [neighbors]).
    The extraction of the chapter and episode numbers in [main] and the
    grouped statistics ([calculate_frequency_of_pages], the
    [average_number_of_...] functions) are embedded as well.

    Conventions.
    - A polars column is a list of nullable values ([option]).
    - A Python [dict] is an insertion-ordered association list with unique
      keys ([dict]); iteration follows insertion order.
    - An exception is a value of [exn]; code that may raise returns
      [result].
    - [Series.unique()] and iteration over a Python [set] return the distinct
      elements in an order that is not specified: both are parameters of
      type [enumerator]. *)

From Stdlib Require Import ZArith QArith.
From stdpp Require Import base decidable option list strings.

#[local] Set Warnings "-clear-no-such-hyp".

(** ** Exceptions *)

Inductive exn := Raise (cls : string) (msg : string).

Definition exn_class (e : exn) : string := let 'Raise c _ := e in c.

Definition result (A : Type) : Type := (exn + A)%type.

Definition raise {A} (e : exn) : result A := inl e.

Global Instance result_ret : MRet result := λ A x, inr x.
Global Instance result_bind : MBind result := λ A B f m,
  match m with inl e => inl e | inr x => f x end.

Definition ValueError (msg : string) : exn := Raise "ValueError" msg.
Definition KeyError (key : string) : exn := Raise "KeyError" key.
Definition ZeroDivisionError : exn := Raise "ZeroDivisionError" "division by zero".

(** [for x in xs: body] over a state that the body updates, stopping at the
    first exception. *)
Fixpoint for_each {A S : Type} (xs : list A) (body : A → S → result S) (s : S)
  : result S :=
  match xs with
  | [] => mret s
  | x :: xs' => s' ← body x s; for_each xs' body s'
  end.

(** ** Python dictionaries *)

Abbreviation dict K V := (list (K * V)) (only parsing).

Section dict.
Context {K V : Type} `{EqDecision K}.

Fixpoint dict_get (k : K) (d : dict K V) : option V :=
  match d with
  | [] => None
  | (k', v) :: d' => if decide (k = k') then Some v else dict_get k d'
  end.

(** [d[k] = v]: an existing key keeps its position, a new key goes last. *)
Fixpoint dict_set (k : K) (v : V) (d : dict K V) : dict K V :=
  match d with
  | [] => [(k, v)]
  | (k', v') :: d' =>
      if decide (k = k') then (k, v) :: d' else (k', v') :: dict_set k v d'
  end.

Definition dict_keys (d : dict K V) : list K := d.*1.
Definition dict_values (d : dict K V) : list V := d.*2.
Definition dict_mem (k : K) (d : dict K V) : bool :=
  bool_decide (is_Some (dict_get k d)).
End dict.

(** ** Order of [unique()] and of set iteration *)

(** [Series.unique()] and the iteration over [set(xs)] give the distinct
    elements of their input, in an order that the libraries leave open. An
    [enumerator] is any such choice of order; it is fixed for one run, so
    that equal inputs are listed in the same order. *)
Record enumerator := {
  enum : ∀ A, EqDecision A → list A → list A;
  enum_NoDup : ∀ A (H : EqDecision A) (l : list A), NoDup (enum A H l);
  enum_elem : ∀ A (H : EqDecision A) (l : list A) (x : A), x ∈ enum A H l ↔ x ∈ l
}.

Global Arguments enum _ {_ _} _.

(** Two such orders: the distinct elements, each at the place of its last
    occurrence, and the same list reversed. *)
Program Definition first_seen : enumerator :=
  {| enum := λ A H l, remove_dups l |}.
Next Obligation. intros. apply NoDup_remove_dups. Qed.
Next Obligation. intros. apply elem_of_remove_dups. Qed.

Program Definition last_first : enumerator :=
  {| enum := λ A H l, reverse (remove_dups l) |}.
Next Obligation. intros. rewrite reverse_Permutation. apply NoDup_remove_dups. Qed.
Next Obligation. intros. rewrite elem_of_reverse. apply elem_of_remove_dups. Qed.

(** ** Data frames *)

Record ChapterRecord := {
  cr_chapter : option Z;
  cr_volume : option Z;
  cr_pages : option Z;
  cr_date : option string
}.

Record AppearanceRecord := {
  ar_character : option string;
  ar_chapter : option Z;
  ar_episode : option Z
}.

Record JoinedRecord := {
  character : option string;
  chapter : option Z;
  episode : option Z;
  volume : option Z;
  pages : option Z;
  date : option string
}.

Abbreviation DataFrame := (list JoinedRecord) (only parsing).

(** A row that only carries the two columns the builder reads. *)
Definition row (ch : Z) (c : string) : JoinedRecord :=
  {| character := Some c; chapter := Some ch; episode := None;
     volume := None; pages := None; date := None |}.

(** [pl.col("chapter") == value]: a comparison with a null is null. *)
Definition col_eq (a b : option Z) : option bool :=
  match a, b with
  | Some x, Some y => Some (bool_decide (x = y))
  | _, _ => None
  end.

(** [df.filter(pl.col("chapter") == value)] keeps the rows whose mask is
    true; a null mask drops the row. *)
Definition filter_chapter (value : option Z) (df : DataFrame) : DataFrame :=
  filter (λ r, col_eq (chapter r) value = Some true) df.

(** ** networkx.Graph *)

(** The attribute dictionary of an edge is one object shared by
    [_adj[u][v]] and [_adj[v][u]]: the graph stores its address in both
    places and the dictionaries live in [heap]. Node attribute dictionaries
    stay empty in this program, so [_node] keeps only the keys, in insertion
    order. *)
Abbreviation loc := nat (only parsing).

Record Graph := {
  _node : list string;
  _adj : dict string (dict string loc);
  heap : list (dict string Z)
}.

Definition empty_graph : Graph := {| _node := []; _adj := []; heap := [] |}.

Definition none_error : exn := ValueError "None cannot be a node".

Definition none_node {A} : result A := raise none_error.

(** The node-adding step shared by [add_node] and [add_edge]. *)
Definition ensure_node (n : option string) (G : Graph) : result (string * Graph) :=
  match n with
  | None => none_node
  | Some s =>
      if decide (s ∈ _node G) then mret (s, G)
      else mret (s, {| _node := _node G ++ [s];
                       _adj := dict_set s [] (_adj G);
                       heap := heap G |})
  end.

Definition add_node (n : option string) (G : Graph) : result Graph :=
  p ← ensure_node n G; mret p.2.

Definition getitem {V} (k : string) (d : dict string V) : result V :=
  match dict_get k d with
  | Some v => mret v
  | None => raise (KeyError k)
  end.

(** [self._adj[u][v] = datadict] *)
Definition adj_setitem (u v : string) (l : loc) (G : Graph) : result Graph :=
  nbrs ← getitem u (_adj G);
  mret {| _node := _node G;
          _adj := dict_set u (dict_set v l nbrs) (_adj G);
          heap := heap G |}.

(** [G.add_edge(u, v, weight=w)] *)
Definition add_edge (u v : option string) (w : Z) (G : Graph) : result Graph :=
  '(u, G) ← ensure_node u G;
  '(v, G) ← ensure_node v G;
  nbrs ← getitem u (_adj G);
  let '(l, datadict, hp) :=
    match dict_get v nbrs with
    | Some l => (l, default [] (heap G !! l), heap G)
    | None => (length (heap G), [], heap G ++ [[]])
    end in
  let G := {| _node := _node G; _adj := _adj G;
              heap := <[l := dict_set "weight" w datadict]> hp |} in
  G ← adj_setitem u v l G;
  adj_setitem v u l G.

(** [G[u][v]["weight"] += delta] *)
Definition iadd_weight (u v : option string) (delta : Z) (G : Graph) : result Graph :=
  match u, v with
  | Some u, Some v =>
      nbrs ← getitem u (_adj G);
      l ← getitem v nbrs;
      match heap G !! l with
      | Some datadict =>
          match dict_get "weight" datadict with
          | Some w =>
              mret {| _node := _node G; _adj := _adj G;
                      heap := <[l := dict_set "weight" (w + delta)%Z datadict]> (heap G) |}
          | None => raise (KeyError "weight")
          end
      | None => raise (KeyError "weight")
      end
  | _, _ => raise (KeyError "None")
  end.

(** ** The builder *)

Definition link (c c2 : option string) (G : Graph) : result Graph :=
  if decide (c ≠ c2) then
    G ← add_edge c c2 1 G; iadd_weight c c2 1 G
  else
    G ← add_edge c c2 0 G; iadd_weight c c2 0 G.

Definition create_data_for_character_appearance_network
    (unique : enumerator) (characters_df : DataFrame) : result Graph :=
  for_each (enum unique (chapter <$> characters_df)) (λ ch G,
    let chapter_df := filter_chapter ch characters_df in
    for_each (enum unique (character <$> chapter_df)) (λ c G,
      G ← add_node c G;
      for_each (enum unique (character <$> chapter_df)) (λ c2 G, link c c2 G) G) G)
    empty_graph.

(** ** Graph metrics *)

(** One item of [G.degree()]: [len(nbrs) + (n in nbrs)], so that a self-loop
    is counted twice. *)
Definition degree (G : Graph) (n : string) : result nat :=
  nbrs ← getitem n (_adj G);
  mret (length nbrs + (if dict_mem n nbrs then 1 else 0)).

(** [G.degree()], in node order. *)
Definition degree_view (G : Graph) : result (list (string * nat)) :=
  mapM (λ n, d ← degree G n; mret (n, d)) (_node G).

(** [list(G.neighbors(n))] *)
Definition neighbors (G : Graph) (n : string) : result (list string) :=
  nbrs ← getitem n (_adj G); mret (dict_keys nbrs).

(** [len(G.edges())]: half the sum of [len(nbrs) + (n in nbrs)]. *)
Definition number_of_edges (G : Graph) : result nat :=
  dv ← degree_view G; mret (sum_list dv.*2 `div` 2).

(** [max(xs, key=key)]: the first maximal element; fails on no element. *)
Definition py_max {A} (key : A → nat) (xs : list A) : result A :=
  match xs with
  | [] => raise (ValueError "max() arg is an empty sequence")
  | x :: xs' =>
      mret (fold_left (λ best y, if decide (key best < key y) then y else best) xs' x)
  end.

(** [a / b] on integers; the quotient is kept exact. *)
Definition true_div (a b : nat) : result Q :=
  if decide (b = 0) then raise ZeroDivisionError
  else mret (Z.of_nat a # Pos.of_nat b).

(** [xs.count(x)] *)
Definition list_count (x : nat) (xs : list nat) : nat :=
  length (filter (λ y, y = x) xs).

Record Report := {
  degree_count : dict nat nat;
  most_common_degree : nat;
  degree_sequence : list nat;
  total_nodes : nat;
  total_edges : nat;
  average_degree : Q;
  highest_degree : nat;
  highest_degree_node : string;
  highest_degree_neighbors : list string
}.

(** The values that [plot_degree_distribution] prints and annotates, in the
    order in which it computes them. *)
Definition plot_degree_distribution (set_iter : enumerator) (G : Graph)
  : result Report :=
  dv ← degree_view G;
  let degree_sequence := dv.*2 in
  let degree_count : dict nat nat :=
    (λ x, (x, list_count x degree_sequence)) <$> enum set_iter degree_sequence in
  most ← py_max (λ x, default 0 (dict_get x degree_count)) (dict_keys degree_count);
  edges ← number_of_edges G;
  avg ← true_div (sum_list degree_sequence) (length degree_sequence);
  hi ← py_max id degree_sequence;
  dv1 ← degree_view G;
  top ← py_max snd dv1;
  dv2 ← degree_view G;
  top2 ← py_max snd dv2;
  nb ← neighbors G top2.1;
  mret {| degree_count := degree_count;
          most_common_degree := most;
          degree_sequence := degree_sequence;
          total_nodes := length (_node G);
          total_edges := edges;
          average_degree := avg;
          highest_degree := hi;
          highest_degree_node := top.1;
          highest_degree_neighbors := nb |}.

(** ** The join of [main] *)

Definition merge (a : AppearanceRecord) (c : option ChapterRecord) : JoinedRecord :=
  {| character := ar_character a;
     chapter := ar_chapter a;
     episode := ar_episode a;
     volume := c ≫= cr_volume;
     pages := c ≫= cr_pages;
     date := c ≫= cr_date |}.

(** Rows of the right table whose key equals a non-null left key. *)
Definition matches (key : option Z) (chapters_df : list ChapterRecord)
  : list ChapterRecord :=
  filter (λ c, col_eq key (cr_chapter c) = Some true) chapters_df.

(** [characters_df.join(chapters_df, on="chapter", how="left")]: every left
    row is kept, once per matching right row, and once with null right
    columns when nothing matches. *)
Definition join_left (characters_df : list AppearanceRecord)
    (chapters_df : list ChapterRecord) : DataFrame :=
  a ← characters_df;
  match matches (ar_chapter a) chapters_df with
  | [] => [merge a None]
  | ms => (λ c, merge a (Some c)) <$> ms
  end.

(** [df.drop_nulls("chapter")] *)
Definition drop_nulls_chapter (df : DataFrame) : DataFrame :=
  filter (λ r, chapter r ≠ None) df.

(** [coerce_types]: a strict cast to [Int64] of columns that already hold
    nullable integers changes no value. *)
Definition coerce_types (df : DataFrame) : DataFrame := df.

(** The table that [main] hands to the builder. *)
Definition joined (characters_df : list AppearanceRecord)
    (chapters_df : list ChapterRecord) : DataFrame :=
  coerce_types (drop_nulls_chapter (join_left characters_df chapters_df)).

(** ** What a graph holds *)

(** The address stored at [_adj[u][v]]. *)
Definition edge_loc (G : Graph) (u v : string) : option loc :=
  dict_get u (_adj G) ≫= dict_get v.

(** [G.get_edge_data(u, v)["weight"]], when the edge exists. *)
Definition edge_weight (G : Graph) (u v : string) : option Z :=
  edge_loc G u v ≫= λ l, heap G !! l ≫= dict_get "weight".

Definition has_edge (G : Graph) (u v : string) : Prop := is_Some (edge_loc G u v).

(** Neighbours of [n] other than [n] itself. *)
Definition other_neighbors (G : Graph) (n : string) : list string :=
  filter (λ m, m ≠ n) (dict_keys (default [] (dict_get n (_adj G)))).

(** Two graphs with the same nodes and the same weight on every pair. *)
Definition graph_equiv (G1 G2 : Graph) : Prop :=
  (∀ n, n ∈ _node G1 ↔ n ∈ _node G2) ∧
  (∀ a b, edge_weight G1 a b = edge_weight G2 a b).

Definition result_equiv (r1 r2 : result Graph) : Prop :=
  match r1, r2 with
  | inr G1, inr G2 => graph_equiv G1 G2
  | inl e1, inl e2 => e1 = e2
  | _, _ => False
  end.

(** ** The input, read as a table of appearances *)

(** These functions do not come from the source: they say, on the table
    itself, who appears where, and the graph is compared with them. *)

(** Chapters (non-null) in which [c] appears, one per row. *)
Definition chapters_of (df : DataFrame) (c : string) : list Z :=
  omap (λ r, if decide (character r = Some c) then chapter r else None) df.

(** Characters (possibly null) of the rows of chapter [ch]. *)
Definition group (df : DataFrame) (ch : Z) : list (option string) :=
  character <$> filter_chapter (Some ch) df.

(** Characters that appear in a row with a chapter. *)
Definition all_characters (df : DataFrame) : list string :=
  remove_dups (omap (λ r, if decide (chapter r = None) then None else character r) df).

(** Characters that share a chapter with [c] ([c] included). *)
Definition co_characters (df : DataFrame) (c : string) : list string :=
  remove_dups (ch ← chapters_of df c; omap id (group df ch)).

(** The distinct chapters in which both [a] and [b] appear. *)
Definition shared_chapters (df : DataFrame) (a b : string) : list Z :=
  remove_dups (filter (λ ch, ch ∈ chapters_of df b) (chapters_of df a)).

(** No row with a chapter has a null character. *)
Definition buildable (df : DataFrame) : Prop :=
  Forall (λ r, chapter r ≠ None → character r ≠ None) df.

Global Instance buildable_dec df : Decision (buildable df).
Proof. unfold buildable. apply _. Defined.

(** ** Invariants *)

Definition same_pair (a b u v : string) : Prop :=
  (a = u ∧ b = v) ∨ (a = v ∧ b = u).

Global Instance same_pair_dec a b u v : Decision (same_pair a b u v).
Proof. unfold same_pair. apply _. Defined.

(** The weight table [wt] with the pair [{u, v}] set to [w]. *)
Definition override (wt : string → string → Z) (u v : string) (w : Z)
  : string → string → Z :=
  λ a b, if decide (same_pair a b u v) then w else wt a b.

(** The invariant of [networkx.Graph] that the builder relies on, with the
    weight of every edge given by the table [wt]. *)
Record WF (wt : string → string → Z) (G : Graph) : Prop := {
  wf_keys : dict_keys (_adj G) = _node G;
  wf_nodup : NoDup (_node G);
  wf_inner : ∀ n nb, dict_get n (_adj G) = Some nb → NoDup (dict_keys nb);
  wf_closed : ∀ u v l, edge_loc G u v = Some l → v ∈ _node G;
  wf_sym : ∀ u v, edge_loc G u v = edge_loc G v u;
  wf_inj : ∀ u v u' v' l,
    edge_loc G u v = Some l → edge_loc G u' v' = Some l → same_pair u' v' u v;
  wf_heap : ∀ u v l,
    edge_loc G u v = Some l → heap G !! l = Some [("weight", wt u v)]
}.

(** The weight of every edge of a graph that the builder has reached. *)
Definition builder_weight (a b : string) : Z := if decide (a = b) then 0%Z else 2%Z.

(** [G] is a well-formed graph with nodes [N] and edges [E], every edge with
    the weight [builder_weight]. *)
Definition Abs (N : string → Prop) (E : string → string → Prop) (G : Graph) : Prop :=
  WF builder_weight G ∧ (∀ n, n ∈ _node G ↔ N n) ∧ (∀ a b, has_edge G a b ↔ E a b).

(** [G] is the graph of the table [df]: its nodes are the characters of
    [df], two characters are joined exactly when they share a chapter, and
    every edge weighs [builder_weight]. *)
Definition Built (df : DataFrame) (G : Graph) : Prop :=
  Abs (λ n, n ∈ all_characters df) (λ a b, b ∈ co_characters df a) G.

Global Instance has_edge_dec G u v : Decision (has_edge G u v).
Proof. unfold has_edge. apply _. Defined.

(** The number that [G.degree()] gives for [n]. *)
Definition degree_nat (G : Graph) (n : string) : nat :=
  let nbrs := default [] (dict_get n (_adj G)) in
  length nbrs + (if dict_mem n nbrs then 1 else 0).


(** ** Sample inputs *)

(** Chapter 1 has A, B and C; chapter 2 has A and B. *)
Definition two_chapters : DataFrame :=
  [row 1 "A"; row 1 "B"; row 1 "C"; row 2 "A"; row 2 "B"].

(** A and B together in three chapters. *)
Definition three_chapters : DataFrame :=
  [row 1 "A"; row 1 "B"; row 2 "A"; row 2 "B"; row 3 "A"; row 3 "B"].

(** One character, alone in chapter 5. *)
Definition lonely : DataFrame := [row 5 "Zoro"].

(** A row without chapter and without character, and a row with a chapter
    and without character. *)
Definition null_row : JoinedRecord :=
  {| character := None; chapter := None; episode := None;
     volume := None; pages := None; date := None |}.


Definition no_character_row : JoinedRecord :=
  {| character := None; chapter := Some 1%Z; episode := None;
     volume := None; pages := None; date := None |}.

(** An appearance in chapter 5, and one without chapter. *)
Definition luffy : AppearanceRecord :=
  {| ar_character := Some "Luffy"; ar_chapter := Some 5%Z; ar_episode := None |}.

Definition nami : AppearanceRecord :=
  {| ar_character := Some "Nami"; ar_chapter := None; ar_episode := Some 1%Z |}.

Definition chapter_one : ChapterRecord :=
  {| cr_chapter := Some 1%Z; cr_volume := Some 1%Z; cr_pages := Some 53%Z;
     cr_date := Some "July 22, 1997" |}.

(** A graph with the edge A–B and the isolated node C. *)
Definition edge_and_isolated : Graph :=
  {| _node := ["A"; "B"; "C"];
     _adj := [("A", [("B", 0)]); ("B", [("A", 0)]); ("C", [])];
     heap := [[("weight", 1%Z)]] |}.

(** ** Chapter and episode numbers of [main] *)

(** The characters table as read from the file: a name and the text
    ["Chapter <N> ; Episode <M>"]. *)
Record RawCharacter := {
  raw_character : option string;
  raw_appearance : option string
}.

(** Strings are byte strings. On text made of ASCII characters the class
    [\d] of the pattern is the ten digits ['0'] to ['9']; the properties
    about arbitrary text below are stated for such text. *)
Fixpoint is_ascii (s : string) : bool :=
  match s with
  | String c s' => bool_decide (Ascii.nat_of_ascii c < 128) && is_ascii s'
  | EmptyString => true
  end.

Definition is_digit (c : Ascii.ascii) : bool :=
  bool_decide (48 ≤ Ascii.nat_of_ascii c ≤ 57).

(** The longest run of digits at the start of [s]: what [(\d+)] captures. *)
Fixpoint take_digits (s : string) : string :=
  match s with
  | String c s' => if is_digit c then String c (take_digits s') else EmptyString
  | EmptyString => EmptyString
  end.

(** [s] without its prefix [word], when it starts with [word]. *)
Fixpoint strip_prefix (word s : string) : option string :=
  match word, s with
  | EmptyString, _ => Some s
  | String a word', String b s' =>
      if decide (a = b) then strip_prefix word' s' else None
  | String _ _, EmptyString => None
  end.

(** An attempt to match [word (\d+)] at the start of [s]. *)
Definition match_here (word s : string) : option string :=
  rest ← strip_prefix word s;
  let digits := take_digits rest in
  if decide (digits = EmptyString) then None else Some digits.

(** [str.extract(word + r"(\d+)", 1)] on one value: the capture of the
    leftmost match, or null. *)
Fixpoint str_extract (word s : string) : option string :=
  match match_here word s with
  | Some digits => Some digits
  | None =>
      match s with
      | String _ s' => str_extract word s'
      | EmptyString => None
      end
  end.

(** The number written by a string of digits. *)
Fixpoint int_of_digits_from (acc : Z) (s : string) : Z :=
  match s with
  | String c s' =>
      int_of_digits_from (acc * 10 + (Z.of_nat (Ascii.nat_of_ascii c) - 48))%Z s'
  | EmptyString => acc
  end.

Definition int_of_digits (s : string) : Z := int_of_digits_from 0 s.

Definition InvalidOperationError : exn :=
  Raise "InvalidOperationError" "conversion from `str` to `i64` failed".

(** [.cast(pl.Int64)] (strict) of a captured run of digits. *)
Definition cast_int64 (v : option string) : result (option Z) :=
  match v with
  | None => mret None
  | Some digits =>
      let z := int_of_digits digits in
      if decide (z < 2 ^ 63)%Z then mret (Some z) else raise InvalidOperationError
  end.

(** One value of the column
    [pl.col("appearance").str.extract(word + r"(\d+)", 1).cast(pl.Int64)]. *)
Definition extract_int (word : string) (appearance : option string)
  : result (option Z) :=
  cast_int64 (appearance ≫= str_extract word).

(** The [with_columns] and [drop("appearance")] of [main]: the two new
    columns are computed one after the other, over all rows. *)
Definition extract_columns (raw : list RawCharacter)
  : result (list AppearanceRecord) :=
  chapters ← mapM (λ r, extract_int "Chapter " (raw_appearance r)) raw;
  episodes ← mapM (λ r, extract_int "Episode " (raw_appearance r)) raw;
  mret (zip_with (λ r ce, {| ar_character := raw_character r;
                             ar_chapter := ce.1; ar_episode := ce.2 |})
          raw (zip chapters episodes)).

(** Decimal notation of a natural number, to write sample texts. *)
Fixpoint dec_fuel (fuel : nat) (n : N) : string :=
  match fuel with
  | 0 => EmptyString
  | S fuel' =>
      (if (n <? 10)%N then EmptyString else dec_fuel fuel' (n / 10)%N)
      +:+ String (Ascii.ascii_of_N (48 + n mod 10)) EmptyString
  end.

Definition dec (n : N) : string := dec_fuel (S (N.size_nat n)) n.

Definition appearance_text (chapter_no episode_no : N) : string :=
  "Chapter " +:+ dec chapter_no +:+ " ; Episode " +:+ dec episode_no.

Fixpoint digits_only (s : string) : bool :=
  match s with
  | String c s' => is_digit c && digits_only s'
  | EmptyString => true
  end.

(** The character [c] does not occur in [s]. *)
Fixpoint lacks (c : Ascii.ascii) (s : string) : bool :=
  match s with
  | String a s' => bool_decide (a ≠ c) && lacks c s'
  | EmptyString => true
  end.

(** ** Grouped statistics *)

(** [df.group_by(key).agg(agg)]: one row per distinct key, null included,
    in an order that polars leaves open. *)
Definition group_by_agg {R V} (order : enumerator) (key : R → option Z)
    (agg : list R → V) (df : list R) : list (option Z * V) :=
  (λ k, (k, agg (filter (λ r, key r = k) df))) <$> enum order (key <$> df).

(** [df.join(right, on=key, how="left")] against an aggregated table: the
    new column is null where no key of [right] equals the key of the row. *)
Definition join_left_on {R V} (key : R → option Z) (df : list R)
    (right : list (option Z * V)) : list (R * option V) :=
  r ← df;
  match filter (λ p, col_eq (key r) p.1 = Some true) right with
  | [] => [(r, None)]
  | ms => (λ p, (r, Some p.2)) <$> ms
  end.

(** [pl.col(c).count()]: the number of non-null values. *)
Definition count_non_null {A} (xs : list (option A)) : nat :=
  length (omap id xs).

(** [pl.col(c).mean()]: nulls are ignored, and the mean of no value is
    null. The quotient is kept exact. *)
Definition mean (xs : list (option Z)) : option Q :=
  let vs := omap id xs in
  if decide (vs = []) then None
  else Some (foldr Z.add 0%Z vs # Pos.of_nat (length vs)).

(** A null mean and a missing match are the same null in the column. *)
Definition flatten_null {A} (v : option (option A)) : option A :=
  match v with Some (Some x) => Some x | _ => None end.

Definition calculate_frequency_of_pages (order : enumerator)
    (chapters_df : list ChapterRecord) : list (option Z * nat) :=
  group_by_agg order cr_pages
    (λ g : list ChapterRecord, count_non_null (cr_pages <$> g)) chapters_df.

Definition average_number_of_characters_per_chapter (order : enumerator)
    (characters_df : list AppearanceRecord)
  : list (AppearanceRecord * option nat) :=
  let avg_characters :=
    group_by_agg order ar_chapter
      (λ g : list AppearanceRecord, count_non_null (ar_character <$> g))
      characters_df in
  join_left_on ar_chapter characters_df avg_characters.

Definition average_number_of_pages_per_chapter (order : enumerator)
    (chapters_df : list ChapterRecord) : list (ChapterRecord * option Q) :=
  let avg_pages :=
    group_by_agg order cr_chapter
      (λ g : list ChapterRecord, mean (cr_pages <$> g)) chapters_df in
  (λ rv : ChapterRecord * option (option Q), (rv.1, flatten_null rv.2)) <$>
    join_left_on cr_chapter chapters_df avg_pages.

Definition average_number_of_pages_per_volume (order : enumerator)
    (chapters_df : list ChapterRecord) : list (ChapterRecord * option Q) :=
  let avg_pages :=
    group_by_agg order cr_volume
      (λ g : list ChapterRecord, mean (cr_pages <$> g)) chapters_df in
  (λ rv : ChapterRecord * option (option Q), (rv.1, flatten_null rv.2)) <$>
    join_left_on cr_volume chapters_df avg_pages.

(** Three chapters of two volumes, one with unknown pages. *)
Definition sample_chapters : list ChapterRecord :=
  [ {| cr_chapter := Some 1%Z; cr_volume := Some 1%Z; cr_pages := Some 53%Z;
       cr_date := None |};
    {| cr_chapter := Some 2%Z; cr_volume := Some 1%Z; cr_pages := Some 23%Z;
       cr_date := None |};
    {| cr_chapter := Some 3%Z; cr_volume := Some 2%Z; cr_pages := None;
       cr_date := None |};
    {| cr_chapter := Some 4%Z; cr_volume := Some 2%Z; cr_pages := Some 23%Z;
       cr_date := None |} ].

(** * Proofs *)

(** ** The exception monad and loops *)

Ltac rsimpl := cbn [mbind mret result_bind result_ret].

(** A loop whose body keeps an invariant on the elements seen so far, and
    fails with [e] exactly on the elements that are not [ok]. *)
Lemma for_each_spec {A S} (I : list A → S → Prop) (ok : A → Prop)
    `{!∀ x, Decision (ok x)} (e : exn) (body : A → S → result S) xs s :
  I [] s →
  (∀ pre x s, I pre s → x ∈ xs → ok x →
     ∃ s', body x s = inr s' ∧ I (pre ++ [x]) s') →
  (∀ pre x s, I pre s → x ∈ xs → ¬ ok x → body x s = inl e) →
  if decide (Forall ok xs)
  then ∃ s', for_each xs body s = inr s' ∧ I xs s'
  else for_each xs body s = inl e.
Proof.
  intros H0 Hok Hbad.
  assert (Hgen : ∀ suf pre s, I pre s → (∀ x, x ∈ suf → x ∈ xs) →
    if decide (Forall ok suf)
    then ∃ s', for_each suf body s = inr s' ∧ I (pre ++ suf) s'
    else for_each suf body s = inl e).
  { induction suf as [|x suf IH]; intros pre s1 HI Hsub.
    - rewrite decide_True by constructor. rewrite app_nil_r. simpl. eauto.
    - simpl. destruct (decide (ok x)) as [Hx|Hx].
      + destruct (Hok pre x s1) as (s2 & Hb & HI2); [done|apply Hsub; left|done|].
        rewrite Hb. simpl.
        specialize (IH (pre ++ [x]) s2 HI2 (λ y Hy, Hsub y (list_elem_of_further _ _ _ Hy))).
        rewrite <- (assoc_L (++)) in IH. simpl in IH.
        destruct (decide (Forall ok suf)) as [Hs|Hs].
        * rewrite decide_True by (by constructor). done.
        * rewrite decide_False by (by inversion 1). done.
      + rewrite decide_False by (by inversion 1).
        rewrite (Hbad pre x s1); [done|done|apply Hsub; left|done]. }
  apply (Hgen xs [] s); auto.
Qed.

(** ** Dictionaries *)

Section dict_facts.
Context {K V : Type} `{EqDecision K}.
Implicit Types (d : dict K V) (k : K) (v : V).

Lemma dict_get_set_eq k v d : dict_get k (dict_set k v d) = Some v.
Proof.
  induction d as [|[k' v'] d IH]; simpl.
  - by rewrite decide_True.
  - destruct (decide (k = k')); simpl.
    + by rewrite decide_True.
    + by rewrite decide_False.
Qed.

Lemma dict_get_set_ne k k' v d :
  k ≠ k' → dict_get k' (dict_set k v d) = dict_get k' d.
Proof.
  intros Hne. induction d as [|[k0 v0] d IH]; simpl.
  - by rewrite decide_False.
  - destruct (decide (k = k0)) as [->|]; simpl.
    + by rewrite !decide_False.
    + by rewrite IH.
Qed.

Lemma dict_get_set k k' v d :
  dict_get k' (dict_set k v d) = if decide (k' = k) then Some v else dict_get k' d.
Proof.
  destruct (decide (k' = k)) as [->|].
  - apply dict_get_set_eq.
  - by apply dict_get_set_ne.
Qed.

Lemma dict_get_is_Some k d : is_Some (dict_get k d) ↔ k ∈ dict_keys d.
Proof.
  unfold dict_keys. induction d as [|[k' v'] d IH]; simpl.
  - rewrite elem_of_nil. split; [by intros [? ?]|done].
  - rewrite elem_of_cons. destruct (decide (k = k')); [naive_solver|].
    rewrite IH. naive_solver.
Qed.

Lemma dict_get_None k d : dict_get k d = None ↔ k ∉ dict_keys d.
Proof. rewrite <- dict_get_is_Some, eq_None_not_Some. done. Qed.

Lemma dict_keys_set_old k v d :
  k ∈ dict_keys d → dict_keys (dict_set k v d) = dict_keys d.
Proof.
  unfold dict_keys. induction d as [|[k' v'] d IH]; simpl.
  - by intros ?%elem_of_nil.
  - intros Hin. destruct (decide (k = k')) as [->|]; simpl; [done|].
    f_equal. apply IH. apply elem_of_cons in Hin. naive_solver.
Qed.

Lemma dict_keys_set_new k v d :
  k ∉ dict_keys d → dict_keys (dict_set k v d) = dict_keys d ++ [k].
Proof.
  unfold dict_keys. induction d as [|[k' v'] d IH]; simpl; [done|].
  intros Hin. apply not_elem_of_cons in Hin as [? ?].
  rewrite decide_False by done. simpl. f_equal. by apply IH.
Qed.

Lemma elem_of_dict_keys_set k k' v d :
  k' ∈ dict_keys (dict_set k v d) ↔ k' = k ∨ k' ∈ dict_keys d.
Proof.
  rewrite <- !dict_get_is_Some, dict_get_set.
  destruct (decide (k' = k)); naive_solver.
Qed.

Lemma NoDup_dict_keys_set k v d :
  NoDup (dict_keys d) → NoDup (dict_keys (dict_set k v d)).
Proof.
  intros Hnd. destruct (decide (k ∈ dict_keys d)).
  - by rewrite dict_keys_set_old.
  - rewrite dict_keys_set_new by done. apply NoDup_app. split_and!; [done| |].
    + intros x Hx ->%list_elem_of_singleton. done.
    + apply NoDup_singleton.
Qed.
End dict_facts.

(** ** Well-formed graphs *)

Lemma WF_ext wt wt' G : (∀ a b, wt a b = wt' a b) → WF wt G → WF wt' G.
Proof.
  intros Heq [? ? ? ? ? ? Hh]. split; try done.
  intros u v l Hl. rewrite <- Heq. by apply Hh.
Qed.

Lemma WF_empty wt : WF wt empty_graph.
Proof. split; try done; apply NoDup_nil_2. Qed.

Lemma WF_node_adj wt G n :
  WF wt G → n ∈ _node G ↔ is_Some (dict_get n (_adj G)).
Proof. intros HG. rewrite dict_get_is_Some, (wf_keys _ _ HG). done. Qed.

Lemma edge_weight_WF wt G u v :
  WF wt G → edge_weight G u v = (λ _, wt u v) <$> edge_loc G u v.
Proof.
  intros HG. unfold edge_weight.
  destruct (edge_loc G u v) as [l|] eqn:Hl; [|done].
  cbn. rewrite (wf_heap _ _ HG _ _ _ Hl). cbn. done.
Qed.

(** ** The operations of [networkx.Graph] *)

Lemma ensure_node_spec wt G s :
  WF wt G →
  ∃ G', ensure_node (Some s) G = inr (s, G') ∧ WF wt G' ∧
        (∀ n, n ∈ _node G' ↔ n ∈ _node G ∨ n = s) ∧
        (∀ a b, edge_loc G' a b = edge_loc G a b) ∧
        heap G' = heap G.
Proof.
  intros HG. unfold ensure_node. destruct (decide (s ∈ _node G)) as [Hin|Hin].
  - exists G. split_and!; try done. naive_solver.
  - eexists. split; [done|].
    assert (Hnone : dict_get s (_adj G) = None).
    { apply eq_None_not_Some. by rewrite <- (WF_node_adj _ _ _ HG). }
    assert (Hloc : ∀ a b,
      edge_loc {| _node := _node G ++ [s]; _adj := dict_set s [] (_adj G);
                  heap := heap G |} a b = edge_loc G a b).
    { intros a b. unfold edge_loc. simpl. rewrite dict_get_set.
      destruct (decide (a = s)) as [->|]; [|done]. by rewrite Hnone. }
    split_and!; try done.
    + destruct HG as [Hk Hnd Hi Hc Hs Hj Hh]. split; simpl.
      * rewrite dict_keys_set_new by (by rewrite Hk). by rewrite Hk.
      * apply NoDup_app. split_and!; [done| |apply NoDup_singleton].
        intros x Hx ->%list_elem_of_singleton. done.
      * intros n nb. rewrite dict_get_set. destruct (decide (n = s)).
        -- intros [= <-]. apply NoDup_nil_2.
        -- apply Hi.
      * intros u v l. rewrite Hloc. intros Hl. apply elem_of_app. left. eauto.
      * intros u v. by rewrite !Hloc.
      * intros u v u' v' l. rewrite !Hloc. apply Hj.
      * intros u v l. rewrite Hloc. apply Hh.
    + intros n. simpl. rewrite elem_of_app, list_elem_of_singleton. done.
Qed.

Lemma adj_setitem_spec G u v l :
  u ∈ dict_keys (_adj G) →
  ∃ G', adj_setitem u v l G = inr G' ∧ _node G' = _node G ∧ heap G' = heap G ∧
        dict_keys (_adj G') = dict_keys (_adj G) ∧
        (∀ a b, edge_loc G' a b =
                if decide (a = u ∧ b = v) then Some l else edge_loc G a b) ∧
        ((∀ n nb, dict_get n (_adj G) = Some nb → NoDup (dict_keys nb)) →
         ∀ n nb, dict_get n (_adj G') = Some nb → NoDup (dict_keys nb)).
Proof.
  intros Hu. pose proof Hu as [nbrs Hnb]%dict_get_is_Some.
  unfold adj_setitem, getitem. rewrite Hnb. simpl. eexists. split; [done|].
  simpl. split_and!; try done.
  - by apply dict_keys_set_old.
  - intros a b. unfold edge_loc. simpl. rewrite dict_get_set.
    destruct (decide (a = u)) as [->|Ha]; simpl.
    + rewrite dict_get_set, Hnb. simpl.
      destruct (decide (b = v)) as [->|Hb].
      * by rewrite decide_True.
      * rewrite decide_False by naive_solver. done.
    + rewrite decide_False by naive_solver. done.
  - intros Hi n nb. rewrite dict_get_set. destruct (decide (n = u)) as [->|].
    + intros [= <-]. apply NoDup_dict_keys_set. by apply (Hi u).
    + apply Hi.
Qed.

Lemma edge_loc_same_pair wt G a b u v :
  WF wt G → same_pair a b u v → edge_loc G a b = edge_loc G u v.
Proof.
  intros HG [[-> ->]|[-> ->]]; [done|]. apply (wf_sym _ _ HG).
Qed.

(** Changing the attribute dictionary at the address of the pair [{u, v}]. *)
Lemma WF_heap_update wt G u v l w hp :
  WF wt G →
  (∀ a b, edge_loc G a b = Some l → same_pair a b u v) →
  (∀ l0, edge_loc G u v = Some l0 → l0 = l) →
  (∀ l0, l0 ≠ l → l0 < length (heap G) → hp !! l0 = heap G !! l0) →
  hp !! l = Some [("weight", w)] →
  WF (override wt u v w) {| _node := _node G; _adj := _adj G; heap := hp |}.
Proof.
  intros HG Hl Huv Hfar Hat. pose proof HG as [Hk Hnd Hi Hc Hs Hj Hh].
  split; try done.
  intros a b l0 Hab. change (edge_loc G a b = Some l0) in Hab. simpl.
  unfold override. destruct (decide (l0 = l)) as [->|Hne].
  - rewrite decide_True by auto. done.
  - rewrite Hfar; [|done|]; last first.
    { apply lookup_lt_is_Some. rewrite (Hh _ _ _ Hab). eauto. }
    rewrite (Hh _ _ _ Hab). destruct (decide (same_pair a b u v)) as [Hp|]; [|done].
    exfalso. apply Hne, Huv. by rewrite <- (edge_loc_same_pair _ _ _ _ _ _ HG Hp).
Qed.

(** Storing the address [l] at [_adj[u][v]] and at [_adj[v][u]]. *)
Lemma WF_adj_update wt G u v l :
  WF wt G → u ∈ _node G → v ∈ _node G → wt v u = wt u v →
  (∀ a b, edge_loc G a b = Some l → same_pair a b u v) →
  heap G !! l = Some [("weight", wt u v)] →
  ∃ G', adj_setitem u v l G ≫= adj_setitem v u l = inr G' ∧ WF wt G' ∧
        _node G' = _node G ∧ heap G' = heap G ∧
        (∀ a b, edge_loc G' a b =
                if decide (same_pair a b u v) then Some l else edge_loc G a b).
Proof.
  intros HG Hu Hv Hwt Hl Hat. pose proof HG as [Hk Hnd Hi Hc Hs Hj Hh].
  destruct (adj_setitem_spec G u v l) as (G1 & E1 & N1 & H1 & K1 & L1 & I1).
  { by rewrite Hk. }
  destruct (adj_setitem_spec G1 v u l) as (G2 & E2 & N2 & H2 & K2 & L2 & I2).
  { by rewrite K1, Hk. }
  rewrite E1. simpl. exists G2. split; [done|].
  assert (Hloc : ∀ a b, edge_loc G2 a b =
            if decide (same_pair a b u v) then Some l else edge_loc G a b).
  { intros a b. rewrite L2, L1. unfold same_pair.
    repeat case_decide; naive_solver. }
  assert (Hsp : ∀ a b, same_pair a b u v → wt a b = wt u v).
  { by intros a b [[-> ->]|[-> ->]]. }
  split_and!; [|congruence|congruence|done].
  split.
  - congruence.
  - by rewrite N2, N1.
  - by apply I2, I1.
  - intros a b l0. rewrite Hloc, N2, N1. case_decide as Hp; [|by eauto].
    intros _. by destruct Hp as [[-> ->]|[-> ->]].
  - intros a b. rewrite !Hloc. repeat case_decide; try done.
    + exfalso. unfold same_pair in *. naive_solver.
    + exfalso. unfold same_pair in *. naive_solver.
  - intros a b a' b' l0. rewrite !Hloc. repeat case_decide.
    + intros _ _. unfold same_pair in *. naive_solver.
    + intros [= <-] Hx. apply Hl in Hx. done.
    + intros Hx [= <-]. apply Hl in Hx. unfold same_pair in *. naive_solver.
    + apply Hj.
  - intros a b l0. rewrite Hloc, H2, H1. case_decide as Hp.
    + intros [= <-]. by rewrite (Hsp _ _ Hp).
    + apply Hh.
Qed.

(** [G.add_edge(u, v, weight=w)] on two strings. *)
Lemma add_edge_spec wt G u v w :
  WF wt G →
  ∃ G', add_edge (Some u) (Some v) w G = inr G' ∧
        WF (override wt u v w) G' ∧
        (∀ n, n ∈ _node G' ↔ n ∈ _node G ∨ n = u ∨ n = v) ∧
        (∀ a b, has_edge G' a b ↔ has_edge G a b ∨ same_pair a b u v).
Proof.
  intros HG.
  destruct (ensure_node_spec wt G u HG) as (G1 & E1 & HG1 & N1 & L1 & H1).
  destruct (ensure_node_spec wt G1 v HG1) as (G2 & E2 & HG2 & N2 & L2 & H2).
  unfold add_edge. rewrite E1. rsimpl. rewrite E2.
  rsimpl.
  assert (Hu : u ∈ _node G2) by (apply N2; left; apply N1; by right).
  assert (Hv : v ∈ _node G2) by (apply N2; by right).
  pose proof Hu as [nbrs Hnb]%(WF_node_adj _ _ _ HG2).
  unfold getitem at 1. rewrite Hnb. simpl.
  assert (Hev : dict_get v nbrs = edge_loc G2 u v).
  { unfold edge_loc. by rewrite Hnb. }
  assert (Hww : override wt u v w v u = override wt u v w u v).
  { unfold override. rewrite !decide_True; [done|by left|by right]. }
  assert (Hwuv : override wt u v w u v = w).
  { unfold override. rewrite decide_True; [done|by left]. }
  rewrite Hev. destruct (edge_loc G2 u v) as [l|] eqn:Hl.
  - pose proof (wf_heap _ _ HG2 _ _ _ Hl) as Hat. rewrite Hat. simpl.
    set (hp := <[l:=[("weight", w)]]> (heap G2)).
    assert (Hlt : l < length (heap G2)).
    { apply lookup_lt_is_Some. eauto. }
    assert (HG3 : WF (override wt u v w)
                    {| _node := _node G2; _adj := _adj G2; heap := hp |}).
    { apply (WF_heap_update wt G2 u v l w hp HG2).
      - intros a b Hab. apply (wf_inj _ _ HG2 _ _ _ _ _ Hl Hab).
      - intros l0. congruence.
      - intros l0 Hne _. unfold hp. by rewrite list_lookup_insert_ne.
      - unfold hp. by rewrite list_lookup_insert_eq. }
    destruct (WF_adj_update _ _ u v l HG3) as (G4 & E4 & HG4 & N4 & H4 & L4);
      try done.
    { intros a b Hab. apply (wf_inj _ _ HG2 _ _ _ _ _ Hl Hab). }
    { simpl. unfold hp. rewrite list_lookup_insert_eq by done. by rewrite Hwuv. }
    exists G4. split; [exact E4|]. split_and!; [done| |].
    + intros n. rewrite N4. simpl. rewrite N2, N1. naive_solver.
    + intros a b. unfold has_edge. rewrite L4.
      change (edge_loc {| _node := _node G2; _adj := _adj G2; heap := hp |} a b)
        with (edge_loc G2 a b). rewrite L2, L1.
      case_decide as Hp; [naive_solver|]. naive_solver.
  - simpl.
    set (l := length (heap G2)).
    set (hp := <[l:=[("weight", w)]]> (heap G2 ++ [[]])).
    assert (Hfresh : ∀ a b, edge_loc G2 a b = Some l → same_pair a b u v).
    { intros a b Hab. apply (wf_heap _ _ HG2) in Hab.
      apply lookup_lt_Some in Hab. unfold l in Hab. lia. }
    assert (HG3 : WF (override wt u v w)
                    {| _node := _node G2; _adj := _adj G2; heap := hp |}).
    { apply (WF_heap_update wt G2 u v l w hp HG2).
      - done.
      - intros l0. congruence.
      - intros l0 Hne Hlt. unfold hp.
        rewrite list_lookup_insert_ne by done. by rewrite lookup_app_l.
      - unfold hp. rewrite list_lookup_insert_eq; [done|].
        rewrite length_app. simpl. unfold l. lia. }
    destruct (WF_adj_update _ _ u v l HG3) as (G4 & E4 & HG4 & N4 & H4 & L4);
      try done.
    { simpl. unfold hp. rewrite list_lookup_insert_eq.
      - by rewrite Hwuv.
      - rewrite length_app. simpl. unfold l. lia. }
    exists G4. split; [exact E4|]. split_and!; [done| |].
    + intros n. rewrite N4. simpl. rewrite N2, N1. naive_solver.
    + intros a b. unfold has_edge. rewrite L4.
      change (edge_loc {| _node := _node G2; _adj := _adj G2; heap := hp |} a b)
        with (edge_loc G2 a b). rewrite L2, L1.
      case_decide as Hp; [naive_solver|]. naive_solver.
Qed.

(** [G[u][v]["weight"] += d] on an existing edge. *)
Lemma iadd_weight_spec wt G u v d :
  WF wt G → has_edge G u v →
  ∃ G', iadd_weight (Some u) (Some v) d G = inr G' ∧
        WF (override wt u v (wt u v + d)) G' ∧
        _node G' = _node G ∧
        (∀ a b, edge_loc G' a b = edge_loc G a b).
Proof.
  intros HG [l Hl]. pose proof (wf_heap _ _ HG _ _ _ Hl) as Hat.
  pose proof Hl as Hl'. unfold edge_loc in Hl'.
  destruct (dict_get u (_adj G)) as [nbrs|] eqn:Hnb; [|done].
  cbn [mbind option_bind] in Hl'.
  unfold iadd_weight, getitem. rewrite Hnb. rsimpl.
  rewrite Hl'. rsimpl. rewrite Hat. simpl.
  eexists. split; [done|]. split_and!; [|done|done].
  apply (WF_heap_update wt G u v l); [done| | | |].
  - intros a b Hab. apply (wf_inj _ _ HG _ _ _ _ _ Hl Hab).
  - intros l0. congruence.
  - intros l0 Hne _. by rewrite list_lookup_insert_ne.
  - rewrite list_lookup_insert_eq; [done|]. apply lookup_lt_is_Some. eauto.
Qed.

Lemma builder_weight_same_pair a b u v :
  same_pair a b u v → builder_weight a b = builder_weight u v.
Proof.
  unfold builder_weight. intros [[-> ->]|[-> ->]]; [done|].
  repeat case_decide; congruence.
Qed.

(** One execution of the innermost loop body, from any weight table: the
    pair ends with the weight [builder_weight], whatever it was before. *)
Lemma link_spec_gen wt G u v :
  WF wt G →
  ∃ G', link (Some u) (Some v) G = inr G' ∧
        WF (override wt u v (builder_weight u v)) G' ∧
        (∀ n, n ∈ _node G' ↔ n ∈ _node G ∨ n = u ∨ n = v) ∧
        (∀ a b, has_edge G' a b ↔ has_edge G a b ∨ same_pair a b u v).
Proof.
  intros HG. unfold link.
  destruct (decide (Some u ≠ Some v)) as [Hne|Heq].
  - destruct (add_edge_spec _ G u v 1 HG) as (G1 & E1 & HG1 & N1 & L1).
    rewrite E1. rsimpl.
    destruct (iadd_weight_spec _ G1 u v 1 HG1) as (G2 & E2 & HG2 & N2 & L2).
    { apply L1. right. by left. }
    exists G2. split; [done|]. split_and!.
    + eapply WF_ext; [|exact HG2]. intros a b. unfold override, builder_weight.
      destruct (decide (same_pair a b u v)) as [Hp|Hp]; [|done].
      rewrite decide_True by (by left).
      rewrite decide_False; [done|]. congruence.
    + intros n. by rewrite N2, N1.
    + intros a b. unfold has_edge. rewrite L2. apply L1.
  - assert (u = v) as <-.
    { destruct (decide (u = v)); [done|]. exfalso. apply Heq. congruence. }
    destruct (add_edge_spec _ G u u 0 HG) as (G1 & E1 & HG1 & N1 & L1).
    rewrite E1. rsimpl.
    destruct (iadd_weight_spec _ G1 u u 0 HG1) as (G2 & E2 & HG2 & N2 & L2).
    { apply L1. right. by left. }
    exists G2. split; [done|]. split_and!.
    + eapply WF_ext; [|exact HG2]. intros a b. unfold override, builder_weight.
      destruct (decide (same_pair a b u u)) as [Hp|Hp]; [|done].
      rewrite decide_True by (by left). by rewrite decide_True.
    + intros n. by rewrite N2, N1.
    + intros a b. unfold has_edge. rewrite L2. apply L1.
Qed.

Lemma link_spec G u v :
  WF builder_weight G →
  ∃ G', link (Some u) (Some v) G = inr G' ∧ WF builder_weight G' ∧
        (∀ n, n ∈ _node G' ↔ n ∈ _node G ∨ n = u ∨ n = v) ∧
        (∀ a b, has_edge G' a b ↔ has_edge G a b ∨ same_pair a b u v).
Proof.
  intros HG. destruct (link_spec_gen _ G u v HG) as (G' & E' & HG' & HN & HE).
  exists G'. split_and!; try done.
  eapply WF_ext; [|exact HG']. intros a b. unfold override.
  case_decide as Hp; [|done]. symmetry. by apply builder_weight_same_pair.
Qed.

Lemma add_node_spec wt G s :
  WF wt G →
  ∃ G', add_node (Some s) G = inr G' ∧ WF wt G' ∧
        (∀ n, n ∈ _node G' ↔ n ∈ _node G ∨ n = s) ∧
        (∀ a b, has_edge G' a b ↔ has_edge G a b).
Proof.
  intros HG. destruct (ensure_node_spec wt G s HG) as (G1 & E1 & HG1 & N1 & L1 & _).
  unfold add_node. rewrite E1. simpl. exists G1. split_and!; try done.
  intros a b. unfold has_edge. by rewrite L1.
Qed.

Lemma link_None_r G u : link (Some u) None G = none_node.
Proof.
  unfold link. rewrite decide_True by done. unfold add_edge, ensure_node.
  by destruct (decide (u ∈ _node G)).
Qed.

(** ** The input table *)

Lemma col_eq_true a b : col_eq a b = Some true ↔ ∃ z, a = Some z ∧ b = Some z.
Proof.
  destruct a as [x|], b as [y|]; simpl; try naive_solver.
  split.
  - intros [= ?%bool_decide_eq_true]. naive_solver.
  - intros (z & [= ->] & [= ->]). by rewrite bool_decide_eq_true_2.
Qed.

Lemma elem_of_filter_chapter r ch df :
  r ∈ filter_chapter ch df ↔ r ∈ df ∧ ∃ z, chapter r = Some z ∧ ch = Some z.
Proof. unfold filter_chapter. rewrite list_elem_of_filter, col_eq_true. tauto. Qed.

Lemma elem_of_group c df z :
  c ∈ group df z ↔ ∃ r, r ∈ df ∧ chapter r = Some z ∧ character r = c.
Proof.
  unfold group. rewrite list_elem_of_fmap. split.
  - intros (r & -> & Hr). apply elem_of_filter_chapter in Hr. naive_solver.
  - intros (r & Hr & Hz & <-). exists r. split; [done|].
    apply elem_of_filter_chapter. naive_solver.
Qed.

Lemma elem_of_chapters_of z df c : z ∈ chapters_of df c ↔ Some c ∈ group df z.
Proof.
  unfold chapters_of. rewrite list_elem_of_omap, elem_of_group.
  split; intros (r & Hr & H); exists r; (split; [done|]).
  - case_decide; naive_solver.
  - destruct H as [Hz Hc]. by rewrite decide_True.
Qed.

Lemma elem_of_all_characters n df :
  n ∈ all_characters df ↔ ∃ z, Some n ∈ group df z.
Proof.
  unfold all_characters. rewrite elem_of_remove_dups, list_elem_of_omap.
  setoid_rewrite elem_of_group. split.
  - intros (r & Hr & H). case_decide as Hch; [done|].
    destruct (chapter r) as [z|] eqn:Hz; [|done]. eauto.
  - intros (z & r & Hr & Hz & Hc). exists r. split; [done|].
    rewrite decide_False; [done|]. by rewrite Hz.
Qed.

Lemma elem_of_co_characters b df a :
  b ∈ co_characters df a ↔ ∃ z, Some a ∈ group df z ∧ Some b ∈ group df z.
Proof.
  unfold co_characters. rewrite elem_of_remove_dups, list_elem_of_bind.
  setoid_rewrite elem_of_chapters_of. setoid_rewrite list_elem_of_omap.
  split.
  - intros (z & (c & Hc & Hid) & Ha). simpl in Hid. subst. eauto.
  - intros (z & Ha & Hb). exists z. split; [|done]. by exists (Some b).
Qed.

Lemma buildable_groups df :
  buildable df ↔ ∀ z, Forall is_Some (group df z).
Proof.
  unfold buildable. rewrite Forall_forall. setoid_rewrite Forall_forall.
  setoid_rewrite elem_of_group. split.
  - intros H z c (r & Hr & Hz & <-). apply not_eq_None_Some, H; [done|].
    by rewrite Hz.
  - intros H r Hr Hch. destruct (chapter r) as [z|] eqn:Hz; [|done].
    apply not_eq_None_Some, (H z). eauto.
Qed.

(** ** The loops of the builder *)

Lemma Abs_ext (N N' : string → Prop) (E E' : string → string → Prop) G :
  (∀ n, N n ↔ N' n) → (∀ a b, E a b ↔ E' a b) → Abs N E G → Abs N' E' G.
Proof.
  intros HN HE (HG & Hn & He). split_and!; [done| |].
  - intros n. by rewrite Hn.
  - intros a b. by rewrite He.
Qed.

Lemma inner_loop_spec G c (cs : list (option string)) N E :
  Abs N E G → N c →
  if decide (Forall is_Some cs)
  then ∃ G', for_each cs (λ c2 G, link (Some c) c2 G) G = inr G' ∧
             Abs (λ n, N n ∨ Some n ∈ cs)
                 (λ a b, E a b ∨ (a = c ∧ Some b ∈ cs) ∨ (b = c ∧ Some a ∈ cs)) G'
  else for_each cs (λ c2 G, link (Some c) c2 G) G = inl none_error.
Proof.
  intros HA Hc.
  apply (for_each_spec
    (λ pre G, Abs (λ n, N n ∨ Some n ∈ pre)
                  (λ a b, E a b ∨ (a = c ∧ Some b ∈ pre) ∨ (b = c ∧ Some a ∈ pre)) G)
    is_Some).
  - eapply Abs_ext; [| |exact HA].
    + intros n. rewrite elem_of_nil. tauto.
    + intros a b. rewrite !elem_of_nil. tauto.
  - intros pre x G1 (HG1 & Hn1 & He1) _ [c2 ->].
    destruct (link_spec G1 c c2 HG1) as (G2 & E2 & HG2 & N2 & L2).
    exists G2. split; [done|]. split_and!; [done| |].
    + intros n. rewrite N2, Hn1, elem_of_app, list_elem_of_singleton.
      naive_solver.
    + intros a b. rewrite L2, He1, !elem_of_app, !list_elem_of_singleton.
      unfold same_pair. naive_solver.
  - intros pre x G1 _ _ Hx. destruct x as [c2|].
    + exfalso. apply Hx. eauto.
    + apply link_None_r.
Qed.

Lemma chapter_loop_spec G (cs : list (option string)) N E :
  Abs N E G →
  if decide (Forall is_Some cs)
  then ∃ G', for_each cs (λ c G,
               G ← add_node c G; for_each cs (λ c2 G, link c c2 G) G) G = inr G' ∧
             Abs (λ n, N n ∨ Some n ∈ cs)
                 (λ a b, E a b ∨ (Some a ∈ cs ∧ Some b ∈ cs)) G'
  else for_each cs (λ c G,
         G ← add_node c G; for_each cs (λ c2 G, link c c2 G) G) G = inl none_error.
Proof.
  intros HA.
  pose proof (for_each_spec
    (λ pre G, Abs (λ n, N n ∨ (pre ≠ [] ∧ Some n ∈ cs))
                  (λ a b, E a b ∨ (Some a ∈ pre ∧ Some b ∈ cs)
                                ∨ (Some b ∈ pre ∧ Some a ∈ cs)) G)
    (λ _, Forall is_Some cs) none_error
    (λ c G, G ← add_node c G; for_each cs (λ c2 G, link c c2 G) G) cs G) as Hloop.
  destruct (decide (Forall is_Some cs)) as [Hall|Hnall].
  - rewrite decide_True in Hloop by (by apply Forall_forall).
    destruct Hloop as (G' & E' & HA').
    + eapply Abs_ext; [| |exact HA].
      * intros n. naive_solver.
      * intros a b. rewrite !elem_of_nil. tauto.
    + intros pre x G1 HA1 Hx _.
      assert (is_Some x) as [c ->] by (by eapply Forall_forall in Hall).
      destruct HA1 as (HG1 & Hn1 & He1).
      destruct (add_node_spec _ G1 c HG1) as (G2 & E2 & HG2 & N2 & L2).
      rewrite E2. rsimpl.
      pose proof (inner_loop_spec G2 c cs (λ n, n ∈ _node G2) (has_edge G2)) as Hin.
      rewrite decide_True in Hin by done.
      destruct Hin as (G3 & E3 & HG3 & N3 & L3).
      { by split_and!. }
      { apply N2. by right. }
      exists G3. split; [done|]. split_and!; [done| |].
      * intros n. rewrite N3, N2, Hn1. split; [|naive_solver].
        intros [[[?|[? ?]]| ->]|?]; eauto.
        -- right. split; [|done]. by intros [_ ?]%app_eq_nil.
        -- right. split; [|done]. by intros [_ ?]%app_eq_nil.
        -- right. split; [|done]. by intros [_ ?]%app_eq_nil.
      * intros a b. rewrite L3, L2, He1, !elem_of_app, !list_elem_of_singleton.
        naive_solver.
    + intros pre x G1 _ _ Hx. by destruct Hx.
    + exists G'. split; [done|]. eapply Abs_ext; [| |exact HA'].
      * intros n. simpl. split; [naive_solver|].
        intros [?|Hn]; [by left|]. right. split; [|done].
        intros ->. by apply elem_of_nil in Hn.
      * intros a b. simpl. tauto.
  - destruct (decide (Forall (λ _, Forall is_Some cs) cs)) as [Hf|Hf].
    + exfalso. destruct cs as [|x cs']; [by apply Hnall|].
      by apply Forall_cons in Hf as [? _].
    + apply Hloop.
      * eapply Abs_ext; [| |exact HA].
        -- intros n. naive_solver.
        -- intros a b. rewrite !elem_of_nil. tauto.
      * intros pre x G1 _ _ Hx. by destruct Hnall.
      * intros pre x G1 (HG1 & Hn1 & He1) Hx _. destruct x as [c|]; [|done].
        destruct (add_node_spec _ G1 c HG1) as (G2 & E2 & HG2 & N2 & L2).
        rewrite E2. rsimpl.
        pose proof (inner_loop_spec G2 c cs (λ n, n ∈ _node G2) (has_edge G2)) as Hin.
        rewrite decide_False in Hin by done. apply Hin.
        -- by split_and!.
        -- apply N2. by right.
Qed.

Lemma elem_of_chapter_rows c ch df :
  c ∈ character <$> filter_chapter ch df ↔ ∃ z, ch = Some z ∧ c ∈ group df z.
Proof.
  split.
  - intros (r & -> & Hr)%list_elem_of_fmap.
    apply elem_of_filter_chapter in Hr as (Hr & z & Hz & ->).
    exists z. split; [done|]. apply elem_of_group. eauto.
  - intros (z & -> & Hc). done.
Qed.

Lemma group_chapter c df z : c ∈ group df z → Some z ∈ chapter <$> df.
Proof.
  intros (r & Hr & Hz & _)%elem_of_group. apply list_elem_of_fmap. eauto.
Qed.

(** What the builder returns, for any order of [unique()]. *)
Lemma builder_spec unique df :
  if decide (buildable df)
  then ∃ G, create_data_for_character_appearance_network unique df = inr G ∧
            Abs (λ n, n ∈ all_characters df) (λ a b, b ∈ co_characters df a) G
  else create_data_for_character_appearance_network unique df = inl none_error.
Proof.
  unfold create_data_for_character_appearance_network.
  set (chars := λ ch, character <$> filter_chapter ch df).
  set (body := λ (ch : option Z) (G : Graph),
    for_each (enum unique (chars ch)) (λ c G,
      G ← add_node c G;
      for_each (enum unique (chars ch)) (λ c2 G, link c c2 G) G) G).
  set (chs := enum unique (chapter <$> df)).
  pose proof (for_each_spec
    (λ pre G, Abs (λ n, ∃ ch, ch ∈ pre ∧ Some n ∈ chars ch)
                  (λ a b, ∃ ch, ch ∈ pre ∧ Some a ∈ chars ch ∧ Some b ∈ chars ch) G)
    (λ ch, Forall is_Some (chars ch)) none_error body chs empty_graph) as Hloop.
  assert (Hok : Forall (λ ch, Forall is_Some (chars ch)) chs ↔ buildable df).
  { rewrite buildable_groups, Forall_forall. split.
    - intros H z. apply Forall_forall. intros c Hc.
      assert (Hz : Some z ∈ chs) by (by apply enum_elem, (group_chapter c)).
      specialize (H _ Hz). by eapply Forall_forall in H.
    - intros H ch _. apply Forall_forall. intros c Hc.
      apply elem_of_chapter_rows in Hc as (z & -> & Hc).
      specialize (H z). by eapply Forall_forall in H. }
  assert (Hstep : ∀ G N E ch, Abs N E G →
    if decide (Forall is_Some (chars ch))
    then ∃ G', body ch G = inr G' ∧
           Abs (λ n, N n ∨ Some n ∈ chars ch)
               (λ a b, E a b ∨ (Some a ∈ chars ch ∧ Some b ∈ chars ch)) G'
    else body ch G = inl none_error).
  { intros G N E ch HA.
    pose proof (chapter_loop_spec G (enum unique (chars ch)) N E HA) as Hc.
    assert (Hf : Forall is_Some (enum unique (chars ch)) ↔ Forall is_Some (chars ch)).
    { rewrite !Forall_forall. by setoid_rewrite enum_elem. }
    destruct (decide (Forall is_Some (chars ch))) as [Hall|Hnall].
    - rewrite decide_True in Hc by (by apply Hf).
      destruct Hc as (G' & E' & HA'). exists G'. split; [done|].
      eapply Abs_ext; [| |exact HA'].
      + intros n. simpl. by rewrite enum_elem.
      + intros a b. simpl. by rewrite !enum_elem.
    - rewrite decide_False in Hc by (by rewrite Hf). done. }
  assert (H0 : Abs (λ n, ∃ ch, ch ∈ [] ∧ Some n ∈ chars ch)
                 (λ a b, ∃ ch, ch ∈ [] ∧ Some a ∈ chars ch ∧ Some b ∈ chars ch)
                 empty_graph).
  { split_and!; [apply WF_empty| |].
    - intros n. simpl. rewrite elem_of_nil. split; [done|].
      by intros (? & ?%elem_of_nil & _).
    - intros a b. unfold has_edge, edge_loc. simpl. split; [by intros [? ?]|].
      by intros (? & ?%elem_of_nil & _). }
  destruct (decide (buildable df)) as [Hb|Hb].
  - rewrite decide_True in Hloop by (by apply Hok).
    destruct Hloop as (G' & E' & HA'); [done| | |].
    + intros pre ch G HA _ Hall. specialize (Hstep G _ _ ch HA).
      rewrite decide_True in Hstep by done.
      destruct Hstep as (G' & E' & HA'). exists G'. split; [done|].
      eapply Abs_ext; [| |exact HA'].
      * intros n. simpl. setoid_rewrite elem_of_app.
        setoid_rewrite list_elem_of_singleton. naive_solver.
      * intros a b. simpl. setoid_rewrite elem_of_app.
        setoid_rewrite list_elem_of_singleton. naive_solver.
    + intros pre ch G HA _ Hnall. specialize (Hstep G _ _ ch HA).
      by rewrite decide_False in Hstep.
    + exists G'. split; [done|]. eapply Abs_ext; [| |exact HA'].
      * intros n. simpl. rewrite elem_of_all_characters. split.
        -- intros (ch & _ & (z & -> & Hn)%elem_of_chapter_rows). eauto.
        -- intros (z & Hn). exists (Some z). split; [|done].
           by apply enum_elem, (group_chapter (Some n)).
      * intros a b. simpl. rewrite elem_of_co_characters. split.
        -- intros (ch & _ & (z & -> & Ha)%elem_of_chapter_rows & Hb').
           exists z. split; [done|]. done.
        -- intros (z & Ha & Hb'). exists (Some z). split_and!; [|done|done].
           by apply enum_elem, (group_chapter (Some a)).
  - rewrite decide_False in Hloop by (by rewrite Hok).
    apply Hloop; [done| |].
    + intros pre ch G HA _ Hall. specialize (Hstep G _ _ ch HA).
      rewrite decide_True in Hstep by done.
      destruct Hstep as (G' & E' & HA'). exists G'. split; [done|].
      eapply Abs_ext; [| |exact HA'].
      * intros n. simpl. setoid_rewrite elem_of_app.
        setoid_rewrite list_elem_of_singleton. naive_solver.
      * intros a b. simpl. setoid_rewrite elem_of_app.
        setoid_rewrite list_elem_of_singleton. naive_solver.
    + intros pre ch G HA _ Hnall. specialize (Hstep G _ _ ch HA).
      by rewrite decide_False in Hstep.
Qed.

(** ** Graphs returned by the builder *)

Lemma builder_ok unique df :
  buildable df →
  ∃ G, create_data_for_character_appearance_network unique df = inr G ∧ Built df G.
Proof.
  intros Hb. pose proof (builder_spec unique df) as H.
  by rewrite decide_True in H.
Qed.

Lemma builder_fail unique df :
  ¬ buildable df →
  create_data_for_character_appearance_network unique df = inl none_error.
Proof.
  intros Hb. pose proof (builder_spec unique df) as H.
  by rewrite decide_False in H.
Qed.

Lemma Built_edge_weight df G a b :
  Built df G →
  edge_weight G a b =
  if decide (b ∈ co_characters df a) then Some (builder_weight a b) else None.
Proof.
  intros (HG & HN & HE). rewrite (edge_weight_WF _ _ _ _ HG).
  specialize (HE a b). unfold has_edge in HE.
  destruct (decide (b ∈ co_characters df a)) as [Hin|Hin].
  - apply HE in Hin as [l ->]. done.
  - destruct (edge_loc G a b) as [l|] eqn:Hl; [|done].
    exfalso. apply Hin, HE. eauto.
Qed.

Lemma elem_of_shared_chapters z df a b :
  z ∈ shared_chapters df a b ↔ Some a ∈ group df z ∧ Some b ∈ group df z.
Proof.
  unfold shared_chapters.
  rewrite elem_of_remove_dups, list_elem_of_filter, !elem_of_chapters_of. tauto.
Qed.

Lemma shared_chapters_co_characters df a b :
  shared_chapters df a b ≠ [] ↔ b ∈ co_characters df a.
Proof.
  rewrite elem_of_co_characters. split.
  - intros Hne. destruct (shared_chapters df a b) as [|z l] eqn:Hs; [done|].
    exists z. apply elem_of_shared_chapters. rewrite Hs. left.
  - intros (z & Hz) Hnil. apply elem_of_shared_chapters in Hz.
    rewrite Hnil in Hz. by apply elem_of_nil in Hz.
Qed.

Lemma co_characters_self df n : n ∈ all_characters df → n ∈ co_characters df n.
Proof.
  rewrite elem_of_all_characters, elem_of_co_characters. naive_solver.
Qed.

Lemma Built_nodes df G : Built df G → _node G ≡ₚ all_characters df.
Proof.
  intros (HG & HN & HE). apply NoDup_Permutation.
  - apply (wf_nodup _ _ HG).
  - apply NoDup_remove_dups.
  - done.
Qed.

(** The adjacency dictionary of a node of a well-formed graph. *)
Lemma WF_nbrs wt G n :
  WF wt G → n ∈ _node G →
  ∃ nbrs, dict_get n (_adj G) = Some nbrs ∧ NoDup (dict_keys nbrs) ∧
          ∀ m, m ∈ dict_keys nbrs ↔ has_edge G n m.
Proof.
  intros HG Hn. pose proof Hn as [nbrs Hnb]%(WF_node_adj _ _ _ HG).
  exists nbrs. split_and!; [done|by apply (wf_inner _ _ HG n)|].
  intros m. unfold has_edge, edge_loc. rewrite Hnb. simpl.
  by rewrite dict_get_is_Some.
Qed.

Lemma Built_nbrs df G n :
  Built df G → n ∈ _node G →
  ∃ nbrs, dict_get n (_adj G) = Some nbrs ∧ dict_keys nbrs ≡ₚ co_characters df n.
Proof.
  intros (HG & HN & HE) Hn.
  destruct (WF_nbrs _ _ _ HG Hn) as (nbrs & Hnb & Hnd & Hm).
  exists nbrs. split; [done|]. apply NoDup_Permutation.
  - done.
  - apply NoDup_remove_dups.
  - intros m. by rewrite Hm, HE.
Qed.

(** ** Degrees *)

Lemma length_filter_ne (l : list string) (x : string) :
  NoDup l →
  length l = length (filter (λ m, m ≠ x) l) + (if decide (x ∈ l) then 1 else 0).
Proof.
  induction 1 as [|y l Hy Hnd IH]; [done|].
  rewrite filter_cons. simpl. destruct (decide (y ≠ x)) as [Hne|Heq].
  - simpl. rewrite IH. destruct (decide (x ∈ l)) as [Hin|Hin].
    + rewrite decide_True by (by right). done.
    + rewrite decide_False; [done|]. intros [?|?]%elem_of_cons; congruence.
  - assert (y = x) as -> by (by destruct (decide (y = x))).
    rewrite decide_True by left. rewrite IH.
    rewrite decide_False by done. lia.
Qed.

Lemma degree_degree_nat G n :
  n ∈ dict_keys (_adj G) → degree G n = inr (degree_nat G n).
Proof.
  intros [nbrs Hnb]%dict_get_is_Some. unfold degree, degree_nat, getitem.
  rewrite Hnb. done.
Qed.

(** A self-loop adds two to the degree. *)
Lemma WF_degree wt G n :
  WF wt G → n ∈ _node G →
  degree_nat G n =
  length (other_neighbors G n) + (if decide (has_edge G n n) then 2 else 0).
Proof.
  intros HG Hn. destruct (WF_nbrs _ _ _ HG Hn) as (nbrs & Hnb & Hnd & Hm).
  unfold degree_nat, other_neighbors. rewrite Hnb. simpl.
  unfold dict_mem. replace (length nbrs) with (length (dict_keys nbrs))
    by apply length_fmap.
  rewrite (length_filter_ne _ n Hnd).
  destruct (decide (has_edge G n n)) as [He|He].
  - rewrite decide_True by (by apply Hm).
    rewrite bool_decide_eq_true_2 by (by apply dict_get_is_Some, Hm). lia.
  - rewrite decide_False by (by rewrite Hm).
    rewrite bool_decide_eq_false_2 by (by rewrite dict_get_is_Some, Hm). lia.
Qed.

Lemma Built_degree df G n :
  Built df G → n ∈ _node G →
  degree_nat G n = length (other_neighbors G n) + 2 ∧
  degree_nat G n = length (co_characters df n) + 1.
Proof.
  intros HB Hn. pose proof HB as (HG & HN & HE). split.
  - rewrite (WF_degree _ _ _ HG Hn). rewrite decide_True; [done|].
    apply HE, co_characters_self, HN, Hn.
  - destruct (Built_nbrs _ _ _ HB Hn) as (nbrs & Hnb & Hp).
    unfold degree_nat. rewrite Hnb. simpl. unfold dict_mem.
    rewrite bool_decide_eq_true_2.
    + rewrite <- Hp. unfold dict_keys. by rewrite length_fmap.
    + apply dict_get_is_Some. rewrite Hp. apply co_characters_self, HN, Hn.
Qed.

(** ** Metrics *)

Lemma mapM_result {A B} (f : A → result B) (g : A → B) (l : list A) :
  (∀ x, x ∈ l → f x = inr (g x)) → mapM f l = inr (g <$> l).
Proof.
  induction l as [|x l IH]; intros Hf; [done|].
  simpl. rewrite (Hf x) by left. rsimpl.
  rewrite IH by (intros y Hy; apply Hf; by right). done.
Qed.

Lemma degree_view_spec G :
  dict_keys (_adj G) = _node G →
  degree_view G = inr ((λ n, (n, degree_nat G n)) <$> _node G).
Proof.
  intros Hk. unfold degree_view. apply mapM_result.
  intros n Hn. rewrite degree_degree_nat by (by rewrite Hk). done.
Qed.

Lemma degree_view_snd G :
  ((λ n, (n, degree_nat G n)) <$> _node G).*2 = degree_nat G <$> _node G.
Proof. induction (_node G) as [|n l IH]; [done|]. simpl. by f_equal. Qed.

Lemma degree_view_fst G :
  ((λ n, (n, degree_nat G n)) <$> _node G).*1 = _node G.
Proof. induction (_node G) as [|n l IH]; [done|]. simpl. by f_equal. Qed.

Lemma enum_nil (e : enumerator) {A} `{EqDecision A} : enum e (@nil A) = [].
Proof.
  destruct (enum e (@nil A)) as [|x l] eqn:He; [done|].
  assert (x ∈ enum e (@nil A)) as Hx by (rewrite He; left).
  apply enum_elem in Hx. by apply elem_of_nil in Hx.
Qed.

Lemma enum_not_nil (e : enumerator) {A} `{EqDecision A} (l : list A) :
  l ≠ [] → enum e l ≠ [].
Proof.
  destruct l as [|x l]; [done|]. intros _ He.
  assert (x ∈ enum e (x :: l)) as Hx by (apply enum_elem; left).
  rewrite He in Hx. by apply elem_of_nil in Hx.
Qed.

Lemma py_max_elem {A} (key : A → nat) (xs : list A) :
  xs ≠ [] → ∃ x, py_max key xs = inr x ∧ x ∈ xs.
Proof.
  destruct xs as [|x xs]; [done|]. intros _. simpl. eexists. split; [done|].
  assert (Hgen : ∀ l b, b ∈ x :: xs → (∀ y, y ∈ l → y ∈ x :: xs) →
    fold_left (λ best y, if decide (key best < key y) then y else best) l b
      ∈ x :: xs).
  { induction l as [|y l IH]; intros b Hb Hl; [done|]. simpl. apply IH.
    - case_decide; [apply Hl; left|done].
    - intros z Hz. apply Hl. by right. }
  apply Hgen; [left|]. intros y Hy. by right.
Qed.

(** The report on a graph with at least one node. *)
Lemma plot_spec set_iter G :
  dict_keys (_adj G) = _node G → _node G ≠ [] →
  ∃ r, plot_degree_distribution set_iter G = inr r ∧
       degree_sequence r = degree_nat G <$> _node G ∧
       degree_count r =
         (λ x, (x, list_count x (degree_sequence r))) <$>
           enum set_iter (degree_sequence r) ∧
       total_nodes r = length (_node G) ∧
       total_edges r = sum_list (degree_sequence r) `div` 2 ∧
       average_degree r =
         (Z.of_nat (sum_list (degree_sequence r)) # Pos.of_nat (length (_node G))) ∧
       highest_degree_node r ∈ _node G.
Proof.
  intros Hk Hne. unfold plot_degree_distribution, number_of_edges.
  rewrite (degree_view_spec G Hk). rsimpl. rewrite degree_view_snd.
  set (ds := degree_nat G <$> _node G).
  set (dc := (λ x, (x, list_count x ds)) <$> enum set_iter ds).
  assert (Hds : ds ≠ []).
  { unfold ds. by destruct (_node G). }
  destruct (py_max_elem (λ x, default 0 (dict_get x dc)) (dict_keys dc))
    as (most & -> & _).
  { unfold dc, dict_keys. rewrite <- list_fmap_compose.
    intros Hnil%fmap_nil_inv. by apply enum_not_nil in Hnil. }
  rsimpl. unfold true_div. rewrite decide_False; last first.
  { unfold ds. rewrite length_fmap. by destruct (_node G). }
  rsimpl. destruct (py_max_elem id ds Hds) as (hi & -> & _). rsimpl.
  destruct (py_max_elem snd ((λ n, (n, degree_nat G n)) <$> _node G))
    as (top & Etop & Htop).
  { by destruct (_node G). }
  rewrite Etop. rsimpl.
  assert (Hin : top.1 ∈ _node G).
  { rewrite <- (degree_view_fst G). by apply list_elem_of_fmap_2. }
  assert (is_Some (dict_get top.1 (_adj G))) as [nbrs Hnb].
  { apply dict_get_is_Some. by rewrite Hk. }
  unfold neighbors, getitem. rewrite Hnb. rsimpl.
  eexists. split; [done|]. simpl. split_and!; try done.
  unfold ds. by rewrite length_fmap.
Qed.

(** The report on a graph without nodes. *)
Lemma plot_empty set_iter G :
  _node G = [] →
  plot_degree_distribution set_iter G =
  inl (ValueError "max() arg is an empty sequence").
Proof.
  intros Hn. unfold plot_degree_distribution, degree_view. rewrite Hn.
  simpl. rewrite enum_nil. done.
Qed.

(** ** The join *)

Lemma elem_of_join_left r characters_df chapters_df :
  r ∈ join_left characters_df chapters_df ↔
  ∃ a, a ∈ characters_df ∧
       ((matches (ar_chapter a) chapters_df = [] ∧ r = merge a None) ∨
        (∃ c, c ∈ matches (ar_chapter a) chapters_df ∧ r = merge a (Some c))).
Proof.
  unfold join_left. rewrite list_elem_of_bind. split.
  - intros (a & Hr & Ha). exists a. split; [done|].
    destruct (matches (ar_chapter a) chapters_df) as [|c ms] eqn:Hm.
    + left. by apply list_elem_of_singleton in Hr.
    + right. apply list_elem_of_fmap in Hr as (c' & -> & Hc'). eauto.
  - intros (a & Ha & H). exists a. split; [|done].
    destruct H as [[-> ->]|(c & Hc & ->)].
    + by apply list_elem_of_singleton.
    + destruct (matches (ar_chapter a) chapters_df) as [|c' ms] eqn:Hm.
      * by apply elem_of_nil in Hc.
      * by apply (list_elem_of_fmap_2 (λ c, merge a (Some c))).
Qed.

Lemma elem_of_joined r characters_df chapters_df :
  r ∈ joined characters_df chapters_df ↔
  chapter r ≠ None ∧ r ∈ join_left characters_df chapters_df.
Proof.
  unfold joined, coerce_types, drop_nulls_chapter.
  by rewrite list_elem_of_filter.
Qed.

Lemma group_drop_nulls c df z :
  c ∈ group (drop_nulls_chapter df) z ↔ c ∈ group df z.
Proof.
  rewrite !elem_of_group. unfold drop_nulls_chapter.
  setoid_rewrite list_elem_of_filter. split.
  - intros (r & [_ Hr] & H). eauto.
  - intros (r & Hr & Hz & Hc). exists r. split_and!; try done. by rewrite Hz.
Qed.

(** Two graphs of tables with the same groups are equivalent. *)
Lemma Built_equiv df1 df2 G1 G2 :
  (∀ c z, c ∈ group df1 z ↔ c ∈ group df2 z) →
  Built df1 G1 → Built df2 G2 → graph_equiv G1 G2.
Proof.
  intros Hg HB1 HB2. split.
  - intros n. destruct HB1 as (_ & HN1 & _), HB2 as (_ & HN2 & _).
    rewrite HN1, HN2, !elem_of_all_characters. by setoid_rewrite Hg.
  - intros a b.
    rewrite (Built_edge_weight _ _ _ _ HB1), (Built_edge_weight _ _ _ _ HB2).
    assert (b ∈ co_characters df1 a ↔ b ∈ co_characters df2 a) as Hco.
    { rewrite !elem_of_co_characters. by setoid_rewrite Hg. }
    repeat case_decide; tauto.
Qed.

Lemma builder_equiv unique1 unique2 df1 df2 :
  (∀ c z, c ∈ group df1 z ↔ c ∈ group df2 z) →
  result_equiv (create_data_for_character_appearance_network unique1 df1)
               (create_data_for_character_appearance_network unique2 df2).
Proof.
  intros Hg.
  assert (buildable df1 ↔ buildable df2) as Hb.
  { rewrite !buildable_groups. setoid_rewrite Forall_forall.
    by setoid_rewrite Hg. }
  destruct (decide (buildable df1)) as [H1|H1].
  - destruct (builder_ok unique1 df1 H1) as (G1 & -> & HB1).
    destruct (builder_ok unique2 df2) as (G2 & -> & HB2); [by apply Hb|].
    simpl. by eapply Built_equiv.
  - rewrite (builder_fail unique1 df1 H1).
    rewrite (builder_fail unique2 df2) by (by rewrite <- Hb). done.
Qed.



(** * Evaluations *)

(** The graph of the two-chapter table for one order of [unique()]: both
    directions of an edge hold the same address. *)
Example two_chapters_first_seen :
  create_data_for_character_appearance_network first_seen two_chapters =
  inr {| _node := ["A"; "B"; "C"];
         _adj := [("A", [("A", 0); ("B", 1); ("C", 2)]);
                  ("B", [("A", 1); ("B", 3); ("C", 4)]);
                  ("C", [("A", 2); ("B", 4); ("C", 5)])];
         heap := [[("weight", 0%Z)]; [("weight", 2%Z)]; [("weight", 2%Z)];
                  [("weight", 0%Z)]; [("weight", 2%Z)]; [("weight", 0%Z)]] |}.
Proof. reflexivity. Qed.

(** Another order of [unique()] gives another order of the nodes, and with
    it another highest-degree node among equals. *)
Example two_chapters_last_first :
  ∃ G r, create_data_for_character_appearance_network last_first two_chapters = inr G ∧
         plot_degree_distribution last_first G = inr r ∧
         _node G = ["B"; "A"; "C"] ∧ highest_degree_node r = "B".
Proof.
  eexists _, _. split; [vm_compute; reflexivity|].
  split; [vm_compute; reflexivity|]. by split.
Qed.

(** An isolated node without self-loop has degree 0 and is counted. *)
Example edge_and_isolated_report :
  ∃ r, plot_degree_distribution first_seen edge_and_isolated = inr r ∧
       degree_sequence r = [1; 1; 0] ∧
       degree_count r = [(1, 2); (0, 1)] ∧
       average_degree r = (2 # 3)%Q.
Proof. eexists. split; [vm_compute; reflexivity|]. by split_and!. Qed.

(** * The claims *)

(** C1 (the code does not do this). The claim: the weight of the edge
    between two distinct characters is the number of distinct chapters in
    which both appear, counted once or twice per chapter. On a table in
    which A and B share three chapters the builder returns the weight 2,
    which is neither 3 nor 6, whatever the order of [unique()]. *)
Theorem C1_weight_is_not_the_chapter_count unique :
  ∃ G, create_data_for_character_appearance_network unique three_chapters = inr G ∧
       length (shared_chapters three_chapters "A" "B") = 3 ∧
       edge_weight G "A" "B" = Some 2%Z ∧
       edge_weight G "A" "B" ≠ Some (1 * 3)%Z ∧
       edge_weight G "A" "B" ≠ Some (2 * 3)%Z.
Proof.
  destruct (builder_ok unique three_chapters) as (G & EG & HB).
  { by apply (bool_decide_unpack _). }
  exists G. split; [done|]. split; [by vm_compute|].
  rewrite (Built_edge_weight _ _ _ _ HB).
  by vm_compute.
Qed.

(** C6. In the graph returned by the builder, two distinct characters are
    joined by an edge exactly when they share a chapter, and that edge has
    weight 2 however many chapters they share: [add_edge(..., weight=1)]
    resets the weight before the single increment. *)
Theorem C6_distinct_edges_weigh_two unique df :
  buildable df →
  ∃ G, create_data_for_character_appearance_network unique df = inr G ∧
       ∀ a b, a ≠ b →
         edge_weight G a b =
         if decide (shared_chapters df a b = []) then None else Some 2%Z.
Proof.
  intros Hb. destruct (builder_ok unique df Hb) as (G & EG & HB).
  exists G. split; [done|]. intros a b Hab.
  rewrite (Built_edge_weight _ _ _ _ HB). unfold builder_weight.
  rewrite (decide_False (P := a = b)) by done.
  pose proof (shared_chapters_co_characters df a b) as Hs.
  repeat case_decide; tauto.
Qed.

Lemma C6_witness :
  buildable three_chapters ∧
  ∃ G, create_data_for_character_appearance_network first_seen three_chapters = inr G ∧
       ∀ a b, a ≠ b →
         edge_weight G a b =
         if decide (shared_chapters three_chapters a b = []) then None else Some 2%Z.
Proof.
  assert (Hb : buildable three_chapters).
  { by apply (bool_decide_unpack _). }
  split; [exact Hb|]. exact (C6_distinct_edges_weigh_two first_seen three_chapters Hb).
Defined.







Lemma enum_all_same (e : enumerator) (l : list nat) (a : nat) :
  l ≠ [] → (∀ x, x ∈ l → x = a) → enum e l = [a].
Proof.
  intros Hne Hall. pose proof (enum_NoDup e _ _ l) as Hnd.
  pose proof (enum_not_nil e l Hne) as Hnn.
  assert (Hin : ∀ x, x ∈ enum e l → x = a).
  { intros x Hx%enum_elem. by apply Hall. }
  destruct (enum e l) as [|x [|y k]]; [done| |].
  - f_equal. apply Hin. left.
  - exfalso. apply NoDup_cons in Hnd as [Hx _]. apply Hx.
    rewrite (Hin x) by left. rewrite (Hin y) by (right; left). left.
Qed.

Lemma fmap_all_same {A} (f : A → nat) (l : list A) (a : nat) :
  (∀ x, x ∈ l → f x = a) → f <$> l = replicate (length l) a.
Proof.
  induction l as [|x l IH]; intros Hf; [done|]. simpl.
  rewrite (Hf x) by left. f_equal. apply IH. intros y Hy. apply Hf. by right.
Qed.

(** C3, as stated, fails: on the table of the example the edges A–C and B–C
    weigh 2, not 1, every degree is 4 and the distribution is {4: 3}. *)
Lemma C3_counterexample :
  ∃ G r, create_data_for_character_appearance_network first_seen two_chapters = inr G ∧
         plot_degree_distribution first_seen G = inr r ∧
         edge_weight G "A" "C" = Some 2%Z ∧
         edge_weight G "B" "C" = Some 2%Z ∧
         degree_sequence r = [4; 4; 4] ∧
         degree_count r = [(4, 3)] ∧
         ¬ (edge_weight G "A" "C" = Some 1%Z ∧ edge_weight G "B" "C" = Some 1%Z ∧
            degree G "A" = inr 2 ∧ degree G "B" = inr 2 ∧ degree G "C" = inr 1 ∧
            degree_count r ≡ₚ [(2, 2); (1, 1)]).
Proof.
  eexists _, _. split; [vm_compute; reflexivity|].
  split; [vm_compute; reflexivity|].
  split_and!; try (by vm_compute).
  intros (H & _). by vm_compute in H.
Qed.

(** C3, amended. On the table where chapter 1 holds A, B and C and chapter 2
    holds A and B, the builder returns, for every order of [unique()], a
    graph with the edge A–B of weight 2 and with the edges A–C and B–C; the
    metrics give degree 4 to A, to B and to C, and the degree distribution
    {4: 3}. *)
Theorem C3_example unique set_iter :
  ∃ G r, create_data_for_character_appearance_network unique two_chapters = inr G ∧
         plot_degree_distribution set_iter G = inr r ∧
         edge_weight G "A" "B" = Some 2%Z ∧
         has_edge G "A" "C" ∧ has_edge G "B" "C" ∧
         degree G "A" = inr 4 ∧ degree G "B" = inr 4 ∧ degree G "C" = inr 4 ∧
         degree_sequence r = [4; 4; 4] ∧
         degree_count r = [(4, 3)].
Proof.
  destruct (builder_ok unique two_chapters) as (G & EG & HB).
  { by apply (bool_decide_unpack _). }
  pose proof HB as (HG & HN & HE).
  assert (Hlen : length (_node G) = 3).
  { by rewrite (Built_nodes _ _ HB). }
  assert (Hne : _node G ≠ []) by (by destruct (_node G)).
  assert (Hdeg : ∀ n, n ∈ _node G → degree_nat G n = 4).
  { intros n Hn. rewrite (proj2 (Built_degree _ _ _ HB Hn)).
    apply HN in Hn. vm_compute in Hn.
    repeat (apply elem_of_cons in Hn as [->|Hn]; [by vm_compute|]).
    by apply elem_of_nil in Hn. }
  assert (Hd : ∀ n, n ∈ all_characters two_chapters → degree G n = inr 4).
  { intros n Hn%HN. rewrite degree_degree_nat by (by rewrite (wf_keys _ _ HG)).
    by rewrite Hdeg. }
  destruct (plot_spec set_iter G (wf_keys _ _ HG) Hne)
    as (r & Er & Hds & Hdc & _).
  assert (Hseq : degree_sequence r = [4; 4; 4]).
  { rewrite Hds, (fmap_all_same _ _ 4 Hdeg), Hlen. done. }
  exists G, r. split; [done|]. split; [done|]. split_and!.
  - rewrite (Built_edge_weight _ _ _ _ HB). by vm_compute.
  - apply HE. by apply (bool_decide_unpack _).
  - apply HE. by apply (bool_decide_unpack _).
  - apply Hd. by apply (bool_decide_unpack _).
  - apply Hd. by apply (bool_decide_unpack _).
  - apply Hd. by apply (bool_decide_unpack _).
  - done.
  - rewrite Hdc, Hseq. rewrite (enum_all_same set_iter _ 4); [done|done|].
    intros x Hx. repeat (apply elem_of_cons in Hx as [->|Hx]; [done|]).
    by apply elem_of_nil in Hx.
Qed.

(** C4, as stated, fails: the metrics on the graph built from an empty table
    fail, but with a [ValueError], not with an [EmptyGraph] error. *)
Lemma C4_counterexample :
  ∃ G e, create_data_for_character_appearance_network first_seen [] = inr G ∧
         plot_degree_distribution first_seen G = inl e ∧
         exn_class e = "ValueError" ∧
         exn_class e ≠ "EmptyGraph".
Proof.
  eexists _, _. split; [vm_compute; reflexivity|].
  split; [vm_compute; reflexivity|]. by split.
Qed.

(** C4, amended. On an empty table the builder returns, without failing, the
    graph with no node and no edge; the metrics on any graph without nodes
    fail with the [ValueError] that [max()] raises on the empty degree
    distribution, before the division of the average is reached. *)
Theorem C4_empty_graph unique set_iter :
  create_data_for_character_appearance_network unique [] = inr empty_graph ∧
  length (_node empty_graph) = 0 ∧
  number_of_edges empty_graph = inr 0 ∧
  ∀ G, _node G = [] →
       plot_degree_distribution set_iter G =
       inl (ValueError "max() arg is an empty sequence").
Proof.
  split_and!; try done.
  - unfold create_data_for_character_appearance_network. simpl.
    by rewrite enum_nil.
  - intros G. apply plot_empty.
Qed.

Lemma C4_witness :
  _node empty_graph = [] ∧
  plot_degree_distribution first_seen empty_graph =
  inl (ValueError "max() arg is an empty sequence").
Proof.
  split; [reflexivity|].
  exact (proj2 (proj2 (proj2 (C4_empty_graph first_seen first_seen)))
           empty_graph eq_refl).
Defined.

(** C7, as stated, fails: a row without chapter and without character is
    skipped silently, and a row with a chapter and without character makes
    the builder fail with a [ValueError], not with [InvalidInput]. *)
Lemma C7_counterexample :
  create_data_for_character_appearance_network first_seen [null_row]
    = inr empty_graph ∧
  ∃ e, create_data_for_character_appearance_network first_seen [no_character_row]
         = inl e ∧
       exn_class e = "ValueError" ∧ exn_class e ≠ "InvalidInput".
Proof.
  split; [by vm_compute|]. eexists. split; [vm_compute; reflexivity|]. by split.
Qed.

(** C7, amended. The builder has no [InvalidInput] error. It fails exactly
    when some row with a chapter has a null character, and then with the
    [ValueError] of networkx for the node [None]; rows with a null chapter
    are skipped: the result is the same as on the table without them. *)
Theorem C7_null_rows unique df :
  match create_data_for_character_appearance_network unique df with
  | inr G => buildable df
  | inl e => Exists (λ r, chapter r ≠ None ∧ character r = None) df ∧
             e = ValueError "None cannot be a node"
  end ∧
  result_equiv (create_data_for_character_appearance_network unique df)
    (create_data_for_character_appearance_network unique (drop_nulls_chapter df)).
Proof.
  split.
  - destruct (decide (buildable df)) as [Hb|Hb].
    + by destruct (builder_ok unique df Hb) as (G & -> & _).
    + rewrite (builder_fail unique df Hb). split; [|done].
      apply not_Forall_Exists in Hb; [|apply _].
      eapply Exists_impl; [exact Hb|]. intros r Hr. simpl in Hr.
      destruct (chapter r), (character r); try done; exfalso; apply Hr; done.
  - apply builder_equiv. intros c z. by rewrite group_drop_nulls.
Qed.

(** C8, as stated, fails: an appearance whose chapter matches no chapter
    record is kept by the left join, with null chapter columns. *)
Lemma C8_counterexample :
  matches (ar_chapter luffy) [chapter_one] = [] ∧
  joined [luffy; nami] [chapter_one] = [merge luffy None] ∧
  merge luffy None ∈ joined [luffy; nami] [chapter_one].
Proof.
  split_and!; [done|done|].
  change (merge luffy None ∈ [merge luffy None]). left.
Qed.

(** C8, amended. After the left join on the chapter number and
    [drop_nulls("chapter")], the rows that remain are exactly the rows of the
    appearances with a non-null chapter: one per matching chapter record,
    or, when no chapter record matches, one with null chapter columns. Rows
    with a null chapter are dropped, rows with an unmatched chapter are
    kept, and every remaining row has a non-null chapter. *)
Theorem C8_left_join_then_drop_nulls characters_df chapters_df :
  (∀ r, r ∈ joined characters_df chapters_df → chapter r ≠ None) ∧
  (∀ r, r ∈ joined characters_df chapters_df ↔
        ∃ a, a ∈ characters_df ∧ ar_chapter a ≠ None ∧
             ((matches (ar_chapter a) chapters_df = [] ∧ r = merge a None) ∨
              (∃ c, c ∈ matches (ar_chapter a) chapters_df ∧
                    r = merge a (Some c)))) ∧
  (∀ a, a ∈ characters_df → ar_chapter a = None →
        ∀ c, merge a c ∉ joined characters_df chapters_df) ∧
  (∀ a, a ∈ characters_df → ar_chapter a ≠ None →
        matches (ar_chapter a) chapters_df = [] →
        merge a None ∈ joined characters_df chapters_df).
Proof.
  assert (Hiff : ∀ r, r ∈ joined characters_df chapters_df ↔
        ∃ a, a ∈ characters_df ∧ ar_chapter a ≠ None ∧
             ((matches (ar_chapter a) chapters_df = [] ∧ r = merge a None) ∨
              (∃ c, c ∈ matches (ar_chapter a) chapters_df ∧
                    r = merge a (Some c)))).
  { intros r. rewrite elem_of_joined, elem_of_join_left. split.
    - intros (Hr & a & Ha & H). exists a. split_and!; [done| |done].
      by destruct H as [[_ ->]|(c & _ & ->)].
    - intros (a & Ha & Hch & H). split; [|eauto].
      by destruct H as [[_ ->]|(c & _ & ->)]. }
  split_and!.
  - intros r Hr%elem_of_joined. tauto.
  - done.
  - intros a Ha Hnone c Hin%elem_of_joined. by destruct Hin as [Hin _].
  - intros a Ha Hch Hm. apply Hiff. exists a. split_and!; [done|done|].
    by left.
Qed.

Lemma C8_witness :
  luffy ∈ [luffy; nami] ∧ ar_chapter luffy ≠ None ∧
  matches (ar_chapter luffy) [chapter_one] = [] ∧
  merge luffy None ∈ joined [luffy; nami] [chapter_one].
Proof.
  assert (H1 : luffy ∈ [luffy; nami]) by left.
  assert (H2 : ar_chapter luffy ≠ None) by done.
  assert (H3 : matches (ar_chapter luffy) [chapter_one] = []) by done.
  split_and!; [done..|].
  exact (proj2 (proj2 (proj2
    (C8_left_join_then_drop_nulls [luffy; nami] [chapter_one]))) luffy H1 H2 H3).
Defined.

(** ** The degree distribution *)

Lemma filter_none {A} (P : A → Prop) `{!∀ x, Decision (P x)} (l : list A) :
  (∀ x, x ∈ l → ¬ P x) → filter P l = [].
Proof.
  induction l as [|x l IH]; intros Hl; [done|].
  rewrite filter_cons, decide_False by (apply Hl; left).
  apply IH. intros y Hy. apply Hl. by right.
Qed.

Lemma filter_all {A} (P : A → Prop) `{!∀ x, Decision (P x)} (l : list A) :
  (∀ x, x ∈ l → P x) → filter P l = l.
Proof.
  induction l as [|x l IH]; intros Hl; [done|].
  rewrite filter_cons, decide_True by (apply Hl; left).
  f_equal. apply IH. intros y Hy. apply Hl. by right.
Qed.

(** The counts of the distinct values [ks] add up to the number of entries
    of [ds] that are among [ks]. *)
Lemma sum_list_count (ks ds : list nat) :
  NoDup ks →
  sum_list ((λ x, list_count x ds) <$> ks) = length (filter (λ y, y ∈ ks) ds).
Proof.
  induction 1 as [|k ks Hk Hnd IH].
  - rewrite filter_none; [done|]. intros x _. apply not_elem_of_nil.
  - rewrite fmap_cons.
    change (list_count k ds + sum_list ((λ x, list_count x ds) <$> ks) =
            length (filter (λ y, y ∈ k :: ks) ds)).
    rewrite IH. unfold list_count. clear IH Hnd.
    induction ds as [|y ds IHds]; [done|].
    rewrite !filter_cons. destruct (decide (y = k)) as [->|Hne].
    + rewrite decide_False by done. rewrite decide_True by left.
      simpl. by rewrite IHds.
    + destruct (decide (y ∈ ks)) as [Hin|Hin].
      * rewrite decide_True by (by right). simpl. rewrite <- IHds. lia.
      * rewrite decide_False; [done|].
        intros [?|?]%elem_of_cons; done.
Qed.

Lemma dict_values_fmap (g : nat → nat) (ks : list nat) :
  dict_values ((λ x, (x, g x)) <$> ks) = g <$> ks.
Proof. induction ks as [|k ks IH]; [done|]. simpl. by f_equal. Qed.

Lemma dict_get_fmap (g : nat → nat) (ks : list nat) (x : nat) :
  x ∈ ks → dict_get x ((λ x, (x, g x)) <$> ks) = Some (g x).
Proof.
  induction ks as [|k ks IH]; [by intros ?%elem_of_nil|].
  intros Hx. simpl. destruct (decide (x = k)) as [->|Hne]; [done|].
  apply IH. apply elem_of_cons in Hx. naive_solver.
Qed.

(** C9. For every graph with at least one node, the metrics succeed; the
    degree sequence has one entry per node, the degree of that node; the
    average degree is the sum of these degrees divided by the number of
    nodes; and the degree distribution counts the same nodes: its counts add
    up to the number of nodes and the degree of every node, 0 included, is
    one of its keys. The quotient is the exact one; Python rounds it to a
    float. *)
Theorem C9_average_degree set_iter G :
  dict_keys (_adj G) = _node G → _node G ≠ [] →
  ∃ r, plot_degree_distribution set_iter G = inr r ∧
       Forall2 (λ n d, degree G n = inr d) (_node G) (degree_sequence r) ∧
       (average_degree r ==
          inject_Z (Z.of_nat (sum_list (degree_sequence r))) /
          inject_Z (Z.of_nat (length (_node G))))%Q ∧
       sum_list (dict_values (degree_count r)) = length (_node G) ∧
       (∀ n d, n ∈ _node G → degree G n = inr d →
               dict_get d (degree_count r) =
               Some (list_count d (degree_sequence r))).
Proof.
  intros Hk Hne.
  destruct (plot_spec set_iter G Hk Hne) as (r & Er & Hds & Hdc & _ & _ & Havg & _).
  exists r. split; [done|]. split_and!.
  - rewrite Hds. apply Forall2_fmap_r, Forall_Forall2_diag, Forall_forall.
    intros n Hn. apply degree_degree_nat. by rewrite Hk.
  - rewrite Havg, Qmake_Qdiv.
    rewrite <- (positive_nat_Z (Pos.of_nat (length (_node G)))).
    rewrite Nat2Pos.id by (by destruct (_node G)). reflexivity.
  - rewrite Hdc, dict_values_fmap, sum_list_count by apply enum_NoDup.
    rewrite filter_all by (intros x Hx; by apply enum_elem).
    by rewrite Hds, length_fmap.
  - intros n d Hn Hd. rewrite degree_degree_nat in Hd by (by rewrite Hk).
    injection Hd as <-. rewrite Hdc. apply dict_get_fmap, enum_elem.
    rewrite Hds. by apply list_elem_of_fmap_2.
Qed.

Lemma C9_witness :
  dict_keys (_adj edge_and_isolated) = _node edge_and_isolated ∧
  _node edge_and_isolated ≠ [] ∧
  ∃ r, plot_degree_distribution first_seen edge_and_isolated = inr r ∧
       Forall2 (λ n d, degree edge_and_isolated n = inr d)
         (_node edge_and_isolated) (degree_sequence r) ∧
       (average_degree r ==
          inject_Z (Z.of_nat (sum_list (degree_sequence r))) /
          inject_Z (Z.of_nat (length (_node edge_and_isolated))))%Q ∧
       sum_list (dict_values (degree_count r)) = length (_node edge_and_isolated) ∧
       (∀ n d, n ∈ _node edge_and_isolated → degree edge_and_isolated n = inr d →
               dict_get d (degree_count r) =
               Some (list_count d (degree_sequence r))).
Proof.
  assert (H1 : dict_keys (_adj edge_and_isolated) = _node edge_and_isolated)
    by reflexivity.
  assert (H2 : _node edge_and_isolated ≠ []) by discriminate.
  split; [exact H1|]. split; [exact H2|].
  exact (C9_average_degree first_seen edge_and_isolated H1 H2).
Defined.

(** C10. The builder is deterministic, also across the orders in which
    [unique()] may return the chapters and the characters: two runs on the
    same table either both fail, with the same error, or return graphs with
    the same nodes and the same weight on every pair. *)
Theorem C10_builder_deterministic unique1 unique2 df :
  result_equiv (create_data_for_character_appearance_network unique1 df)
               (create_data_for_character_appearance_network unique2 df).
Proof. by apply builder_equiv. Qed.

(** * Further properties of the builder *)

Lemma elem_of_group_pairs c (df : DataFrame) z :
  c ∈ group df z ↔ (Some z, c) ∈ (λ r, (chapter r, character r)) <$> df.
Proof.
  rewrite elem_of_group, list_elem_of_fmap. split.
  - intros (r & Hr & Hz & <-). exists r. by rewrite Hz.
  - intros (r & [= Hz Hc] & Hr). exists r. by split_and!.
Qed.

(** X1. The nodes of the graph are, without repetition, the characters of
    the rows that have a chapter: a character whose rows all lack a chapter
    is not a node. *)
Theorem builder_nodes unique df :
  buildable df →
  ∃ G, create_data_for_character_appearance_network unique df = inr G ∧
       NoDup (_node G) ∧
       ∀ n, n ∈ _node G ↔
            ∃ r, r ∈ df ∧ chapter r ≠ None ∧ character r = Some n.
Proof.
  intros Hb. destruct (builder_ok unique df Hb) as (G & EG & HG & HN & HE).
  exists G. split; [done|]. split; [apply (wf_nodup _ _ HG)|].
  intros n. rewrite HN, elem_of_all_characters.
  setoid_rewrite elem_of_group. split.
  - intros (z & r & Hr & Hz & Hc). exists r. split_and!; try done. by rewrite Hz.
  - intros (r & Hr & Hz & Hc). destruct (chapter r) as [z|] eqn:Ez; [|done].
    exists z, r. by split_and!.
Qed.

Lemma builder_nodes_witness :
  buildable two_chapters ∧
  ∃ G, create_data_for_character_appearance_network first_seen two_chapters = inr G ∧
       NoDup (_node G) ∧
       ∀ n, n ∈ _node G ↔
            ∃ r, r ∈ two_chapters ∧ chapter r ≠ None ∧ character r = Some n.
Proof.
  assert (Hb : buildable two_chapters) by (by apply (bool_decide_unpack _)).
  split; [exact Hb|]. exact (builder_nodes first_seen two_chapters Hb).
Defined.

(** X2. The graph is undirected and stores each edge once: both directions
    of a pair read the same attribute dictionary, hence the same weight, two
    different pairs never share a dictionary, and edges only join nodes. *)
Theorem builder_undirected unique df :
  buildable df →
  ∃ G, create_data_for_character_appearance_network unique df = inr G ∧
       (∀ a b, edge_loc G a b = edge_loc G b a) ∧
       (∀ a b, edge_weight G a b = edge_weight G b a) ∧
       (∀ a b a' b' l, edge_loc G a b = Some l → edge_loc G a' b' = Some l →
                       same_pair a' b' a b) ∧
       (∀ a b, has_edge G a b → a ∈ _node G ∧ b ∈ _node G).
Proof.
  intros Hb. destruct (builder_ok unique df Hb) as (G & EG & HG & HN & HE).
  exists G. split; [done|]. split_and!.
  - apply (wf_sym _ _ HG).
  - intros a b. rewrite !(edge_weight_WF _ _ _ _ HG), (wf_sym _ _ HG a b).
    destruct (edge_loc G b a); [|done]. simpl. f_equal.
    apply builder_weight_same_pair. by right.
  - apply (wf_inj _ _ HG).
  - intros a b [l Hl]. split.
    + apply (WF_node_adj _ _ _ HG). unfold edge_loc in Hl.
      destruct (dict_get a (_adj G)); [done|discriminate].
    + apply (wf_closed _ _ HG _ _ _ Hl).
Qed.

Lemma builder_undirected_witness :
  buildable two_chapters ∧
  ∃ G, create_data_for_character_appearance_network first_seen two_chapters = inr G ∧
       (∀ a b, edge_loc G a b = edge_loc G b a) ∧
       (∀ a b, edge_weight G a b = edge_weight G b a) ∧
       (∀ a b a' b' l, edge_loc G a b = Some l → edge_loc G a' b' = Some l →
                       same_pair a' b' a b) ∧
       (∀ a b, has_edge G a b → a ∈ _node G ∧ b ∈ _node G).
Proof.
  assert (Hb : buildable two_chapters) by (by apply (bool_decide_unpack _)).
  split; [exact Hb|]. exact (builder_undirected first_seen two_chapters Hb).
Defined.

(** X3. The result depends only on which (chapter, character) pairs occur
    in the table: the order of the rows, repeated rows and the other columns
    change neither the nodes, nor the weights, nor the error. *)
Theorem builder_depends_on_pairs unique1 unique2 (df1 df2 : DataFrame) :
  (∀ p, p ∈ (λ r, (chapter r, character r)) <$> df1 ↔
        p ∈ (λ r, (chapter r, character r)) <$> df2) →
  result_equiv (create_data_for_character_appearance_network unique1 df1)
               (create_data_for_character_appearance_network unique2 df2).
Proof.
  intros Hp. apply builder_equiv. intros c z.
  by rewrite !elem_of_group_pairs.
Qed.

Lemma builder_depends_on_pairs_witness :
  result_equiv
    (create_data_for_character_appearance_network first_seen
       [row 1 "A"; row 1 "B"])
    (create_data_for_character_appearance_network last_first
       [row 1 "B"; row 1 "A"; row 1 "B"]).
Proof.
  apply builder_depends_on_pairs. intros p. cbn.
  rewrite !elem_of_cons. tauto.
Defined.

(** X4. Adding rows never removes a node or an edge and never changes the
    weight of an edge that was there. *)
Theorem builder_monotone unique1 unique2 (df1 df2 : DataFrame) :
  (∀ r, r ∈ df1 → r ∈ df2) → buildable df2 →
  ∃ G1 G2, create_data_for_character_appearance_network unique1 df1 = inr G1 ∧
           create_data_for_character_appearance_network unique2 df2 = inr G2 ∧
           (∀ n, n ∈ _node G1 → n ∈ _node G2) ∧
           (∀ a b w, edge_weight G1 a b = Some w → edge_weight G2 a b = Some w).
Proof.
  intros Hsub Hb2.
  assert (Hb1 : buildable df1).
  { apply Forall_forall. intros r Hr.
    by apply (proj1 (Forall_forall _ _) Hb2), Hsub. }
  assert (Hg : ∀ c z, c ∈ group df1 z → c ∈ group df2 z).
  { intros c z. rewrite !elem_of_group. intros (r & Hr & H). eauto. }
  destruct (builder_ok unique1 df1 Hb1) as (G1 & E1 & HB1).
  destruct (builder_ok unique2 df2 Hb2) as (G2 & E2 & HB2).
  exists G1, G2. split; [done|]. split; [done|]. split.
  - intros n. destruct HB1 as (_ & HN1 & _), HB2 as (_ & HN2 & _).
    rewrite HN1, HN2, !elem_of_all_characters. intros (z & Hz). eauto.
  - intros a b w.
    rewrite (Built_edge_weight _ _ _ _ HB1), (Built_edge_weight _ _ _ _ HB2).
    case_decide as H1; [|done]. intros Hw. rewrite decide_True; [done|].
    apply elem_of_co_characters in H1 as (z & Ha & Hb').
    apply elem_of_co_characters. eauto.
Qed.

Lemma builder_monotone_witness :
  (∀ r, r ∈ lonely → r ∈ lonely ++ two_chapters) ∧
  buildable (lonely ++ two_chapters) ∧
  ∃ G1 G2,
    create_data_for_character_appearance_network first_seen lonely = inr G1 ∧
    create_data_for_character_appearance_network first_seen
      (lonely ++ two_chapters) = inr G2 ∧
    (∀ n, n ∈ _node G1 → n ∈ _node G2) ∧
    (∀ a b w, edge_weight G1 a b = Some w → edge_weight G2 a b = Some w).
Proof.
  assert (H1 : ∀ r, r ∈ lonely → r ∈ lonely ++ two_chapters).
  { intros r Hr. apply elem_of_app. by left. }
  assert (H2 : buildable (lonely ++ two_chapters))
    by (by apply (bool_decide_unpack _)).
  split; [exact H1|]. split; [exact H2|].
  exact (builder_monotone first_seen first_seen _ _ H1 H2).
Defined.

(** X5. The neighbours of a node other than itself are, without
    repetition, the characters that share a chapter with it: a character
    that is alone in each of its chapters has none. *)
Theorem builder_other_neighbors unique df :
  buildable df →
  ∃ G, create_data_for_character_appearance_network unique df = inr G ∧
       ∀ n, n ∈ _node G →
            NoDup (other_neighbors G n) ∧
            ∀ m, m ∈ other_neighbors G n ↔
                 m ≠ n ∧ shared_chapters df n m ≠ [].
Proof.
  intros Hb. destruct (builder_ok unique df Hb) as (G & EG & HB).
  pose proof HB as (HG & HN & HE).
  exists G. split; [done|]. intros n Hn.
  destruct (WF_nbrs _ _ _ HG Hn) as (nbrs & Hnb & Hnd & Hm).
  unfold other_neighbors. rewrite Hnb. simpl. split.
  - by apply NoDup_filter.
  - intros m. rewrite list_elem_of_filter, Hm, HE.
    by rewrite shared_chapters_co_characters.
Qed.

Lemma builder_other_neighbors_witness :
  buildable lonely ∧
  ∃ G, create_data_for_character_appearance_network first_seen lonely = inr G ∧
       ∀ n, n ∈ _node G →
            NoDup (other_neighbors G n) ∧
            ∀ m, m ∈ other_neighbors G n ↔
                 m ≠ n ∧ shared_chapters lonely n m ≠ [].
Proof.
  assert (Hb : buildable lonely) by (by apply (bool_decide_unpack _)).
  split; [exact Hb|]. exact (builder_other_neighbors first_seen lonely Hb).
Defined.

(** * Further properties of the metrics *)

(** [max(xs, key=key)] returns the first element with the largest key. *)
Lemma py_max_first {A} (key : A → nat) (xs : list A) (x : A) :
  py_max key xs = inr x →
  ∃ pre post, xs = pre ++ x :: post ∧
              Forall (λ y, key y < key x) pre ∧
              Forall (λ y, key y ≤ key x) post.
Proof.
  destruct xs as [|x0 xs]; [done|]. simpl. intros [= <-].
  assert (Hgen : ∀ l pre b post,
    Forall (λ y, key y < key b) pre → Forall (λ y, key y ≤ key b) post →
    let m := fold_left (λ best y, if decide (key best < key y) then y else best)
               l b in
    ∃ pre' post', (pre ++ b :: post) ++ l = pre' ++ m :: post' ∧
                  Forall (λ y, key y < key m) pre' ∧
                  Forall (λ y, key y ≤ key m) post').
  { induction l as [|y l IH]; intros pre b post Hpre Hpost; simpl.
    - exists pre, post. by rewrite app_nil_r.
    - destruct (decide (key b < key y)) as [Hlt|Hge].
      + destruct (IH (pre ++ b :: post) y []) as (pre' & post' & E & H1 & H2).
        * apply Forall_app. split; [|apply Forall_cons; split; [done|]].
          -- eapply Forall_impl; [exact Hpre|]. intros z Hz. simpl in Hz. lia.
          -- eapply Forall_impl; [exact Hpost|]. intros z Hz. simpl in Hz. lia.
        * constructor.
        * exists pre', post'. split; [|done]. rewrite <- E.
          by rewrite <- !(assoc_L (++)).
      + destruct (IH pre b (post ++ [y])) as (pre' & post' & E & H1 & H2).
        * done.
        * apply Forall_app. split; [done|]. apply Forall_singleton. lia.
        * exists pre', post'. split; [|done]. rewrite <- E.
          rewrite <- !(assoc_L (++)). simpl. by rewrite <- ?(assoc_L (++)). }
  destruct (Hgen xs [] x0 []) as (pre & post & E & H1 & H2); [constructor..|].
  exists pre, post. by split_and!.
Qed.

(** Every field of the report on a graph with at least one node. *)
Lemma plot_report set_iter G :
  dict_keys (_adj G) = _node G → _node G ≠ [] →
  ∃ most hi top nbrs,
    py_max (λ x, default 0 (dict_get x
              ((λ x, (x, list_count x (degree_nat G <$> _node G))) <$>
                 enum set_iter (degree_nat G <$> _node G))))
           (enum set_iter (degree_nat G <$> _node G)) = inr most ∧
    py_max id (degree_nat G <$> _node G) = inr hi ∧
    py_max snd ((λ n, (n, degree_nat G n)) <$> _node G) = inr top ∧
    dict_get top.1 (_adj G) = Some nbrs ∧
    plot_degree_distribution set_iter G =
    inr {| degree_count :=
             (λ x, (x, list_count x (degree_nat G <$> _node G))) <$>
               enum set_iter (degree_nat G <$> _node G);
           most_common_degree := most;
           degree_sequence := degree_nat G <$> _node G;
           total_nodes := length (_node G);
           total_edges := sum_list (degree_nat G <$> _node G) `div` 2;
           average_degree :=
             Z.of_nat (sum_list (degree_nat G <$> _node G))
               # Pos.of_nat (length (degree_nat G <$> _node G));
           highest_degree := hi;
           highest_degree_node := top.1;
           highest_degree_neighbors := dict_keys nbrs |}.
Proof.
  intros Hk Hne. unfold plot_degree_distribution, number_of_edges.
  rewrite (degree_view_spec G Hk). rsimpl. rewrite degree_view_snd.
  set (ds := degree_nat G <$> _node G).
  set (dc := (λ x, (x, list_count x ds)) <$> enum set_iter ds).
  assert (Hds : ds ≠ []).
  { unfold ds. by destruct (_node G). }
  assert (Hkeys : dict_keys dc = enum set_iter ds).
  { unfold dc, dict_keys. rewrite <- list_fmap_compose.
    clear. induction (enum set_iter ds) as [|x l IH]; [done|].
    simpl. by f_equal. }
  rewrite Hkeys.
  destruct (py_max_elem (λ x, default 0 (dict_get x dc)) (enum set_iter ds))
    as (most & Emost & _).
  { by apply enum_not_nil. }
  rewrite Emost. rsimpl. unfold true_div. rewrite decide_False; last first.
  { unfold ds. rewrite length_fmap. by destruct (_node G). }
  rsimpl. destruct (py_max_elem id ds Hds) as (hi & Ehi & _).
  rewrite Ehi. rsimpl.
  destruct (py_max_elem snd ((λ n, (n, degree_nat G n)) <$> _node G))
    as (top & Etop & Htop).
  { by destruct (_node G). }
  rewrite Etop. rsimpl.
  assert (Hin : top.1 ∈ _node G).
  { rewrite <- (degree_view_fst G). by apply list_elem_of_fmap_2. }
  assert (is_Some (dict_get top.1 (_adj G))) as [nbrs Hnb].
  { apply dict_get_is_Some. by rewrite Hk. }
  unfold neighbors, getitem. rewrite Hnb. rsimpl.
  exists most, hi, top, nbrs. by split_and!.
Qed.

Lemma list_count_fmap {A} (f : A → nat) (l : list A) (d : nat) :
  list_count d (f <$> l) = length (filter (λ x, f x = d) l).
Proof.
  unfold list_count. induction l as [|x l IH]; [done|].
  rewrite fmap_cons, !filter_cons. by destruct (decide (f x = d)); simpl; rewrite IH.
Qed.

Lemma list_count_pos (d : nat) (l : list nat) : d ∈ l ↔ 1 ≤ list_count d l.
Proof.
  unfold list_count. induction l as [|x l IH].
  - split; [by intros ?%elem_of_nil|simpl; lia].
  - rewrite filter_cons, elem_of_cons. destruct (decide (x = d)) as [->|Hne].
    + simpl. split; [lia|by left].
    + rewrite IH. naive_solver.
Qed.

(** X6. The highest degree is the largest entry of the degree sequence, and
    among the nodes that have it the reported node is the first in node
    order: nodes before it have a smaller degree. *)
Theorem highest_degree_node_is_first_maximum set_iter G :
  dict_keys (_adj G) = _node G → _node G ≠ [] →
  ∃ r pre post,
    plot_degree_distribution set_iter G = inr r ∧
    _node G = pre ++ highest_degree_node r :: post ∧
    degree G (highest_degree_node r) = inr (highest_degree r) ∧
    (∀ n, n ∈ pre → degree_nat G n < highest_degree r) ∧
    (∀ n, n ∈ _node G → degree_nat G n ≤ highest_degree r).
Proof.
  intros Hk Hne.
  destruct (plot_report set_iter G Hk Hne)
    as (most & hi & top & nbrs & _ & Ehi & Etop & _ & Er).
  apply py_max_first in Ehi as (p1 & q1 & E1 & H1 & H1').
  apply py_max_first in Etop as (p2 & q2 & E2 & H2 & H2').
  assert (Htop : top.2 = degree_nat G top.1 ∧ top.1 ∈ _node G).
  { assert (top ∈ (λ n, (n, degree_nat G n)) <$> _node G) as Hin.
    { rewrite E2. apply elem_of_app. right. left. }
    apply list_elem_of_fmap in Hin as (n & -> & Hn). done. }
  destruct Htop as [Htop Htopin].
  assert (Hall : ∀ n, n ∈ _node G → degree_nat G n ≤ top.2).
  { intros n Hn.
    assert ((n, degree_nat G n) ∈ (λ n, (n, degree_nat G n)) <$> _node G) as Hin
      by (by apply (list_elem_of_fmap_2 (λ n, (n, degree_nat G n)))).
    rewrite E2 in Hin. apply elem_of_app in Hin as [Hin|Hin].
    - apply (proj1 (Forall_forall _ _) H2) in Hin. simpl in Hin. lia.
    - apply elem_of_cons in Hin as [<-|Hin]; [done|].
      by apply (proj1 (Forall_forall _ _) H2') in Hin. }
  assert (Hhi : hi = top.2).
  { assert (hi ∈ degree_nat G <$> _node G) as Hin.
    { rewrite E1. apply elem_of_app. right. left. }
    apply list_elem_of_fmap in Hin as (n & Ehi & Hn).
    assert (top.2 ∈ degree_nat G <$> _node G) as Hin2.
    { rewrite Htop. by apply list_elem_of_fmap_2. }
    rewrite E1 in Hin2. apply Nat.le_antisymm.
    - rewrite Ehi. by apply Hall.
    - apply elem_of_app in Hin2 as [Hin2|Hin2].
      + apply (proj1 (Forall_forall _ _) H1) in Hin2. unfold id in Hin2. lia.
      + apply elem_of_cons in Hin2 as [->|Hin2]; [done|].
        by apply (proj1 (Forall_forall _ _) H1') in Hin2. }
  eexists _, p2.*1, q2.*1. split; [exact Er|]. simpl. split_and!.
  - rewrite <- (degree_view_fst G), E2, fmap_app, fmap_cons. done.
  - rewrite degree_degree_nat by (by rewrite Hk). by rewrite Hhi, Htop.
  - intros n (p & -> & Hp)%list_elem_of_fmap. rewrite Hhi.
    assert (p ∈ (λ n, (n, degree_nat G n)) <$> _node G) as Hin.
    { rewrite E2. apply elem_of_app. by left. }
    apply list_elem_of_fmap in Hin as (n & -> & _). simpl.
    by apply (proj1 (Forall_forall _ _) H2) in Hp.
  - intros n Hn. rewrite Hhi. by apply Hall.
Qed.

Lemma highest_degree_node_is_first_maximum_witness :
  dict_keys (_adj edge_and_isolated) = _node edge_and_isolated ∧
  _node edge_and_isolated ≠ [] ∧
  ∃ r pre post,
    plot_degree_distribution first_seen edge_and_isolated = inr r ∧
    _node edge_and_isolated = pre ++ highest_degree_node r :: post ∧
    degree edge_and_isolated (highest_degree_node r) = inr (highest_degree r) ∧
    (∀ n, n ∈ pre → degree_nat edge_and_isolated n < highest_degree r) ∧
    (∀ n, n ∈ _node edge_and_isolated →
          degree_nat edge_and_isolated n ≤ highest_degree r).
Proof.
  assert (H1 : dict_keys (_adj edge_and_isolated) = _node edge_and_isolated)
    by reflexivity.
  assert (H2 : _node edge_and_isolated ≠ []) by discriminate.
  split; [exact H1|]. split; [exact H2|].
  exact (highest_degree_node_is_first_maximum first_seen edge_and_isolated H1 H2).
Defined.

(** X7. The degree distribution has one key per degree that occurs, each
    with the number of nodes of that degree, which is at least 1; the most
    common degree is a key whose count no other key exceeds. *)
Theorem degree_distribution_keys set_iter G :
  dict_keys (_adj G) = _node G → _node G ≠ [] →
  ∃ r, plot_degree_distribution set_iter G = inr r ∧
       NoDup (dict_keys (degree_count r)) ∧
       (∀ d, dict_get d (degree_count r) =
             if decide (d ∈ degree_sequence r)
             then Some (length (filter (λ n, degree_nat G n = d) (_node G)))
             else None) ∧
       (∀ d c, dict_get d (degree_count r) = Some c → 1 ≤ c) ∧
       ∃ cmax, dict_get (most_common_degree r) (degree_count r) = Some cmax ∧
               ∀ d c, dict_get d (degree_count r) = Some c → c ≤ cmax.
Proof.
  intros Hk Hne.
  destruct (plot_report set_iter G Hk Hne)
    as (most & hi & top & nbrs & Emost & _ & _ & _ & Er).
  set (ds := degree_nat G <$> _node G) in *.
  set (dc := (λ x, (x, list_count x ds)) <$> enum set_iter ds) in *.
  assert (Hkeys : dict_keys dc = enum set_iter ds).
  { unfold dc, dict_keys. rewrite <- list_fmap_compose.
    clear. induction (enum set_iter ds) as [|x l IH]; [done|].
    simpl. by f_equal. }
  assert (Hget : ∀ d, dict_get d dc =
            if decide (d ∈ ds) then Some (list_count d ds) else None).
  { intros d. destruct (decide (d ∈ ds)) as [Hd|Hd].
    - apply dict_get_fmap. by apply enum_elem.
    - apply dict_get_None. rewrite Hkeys. by rewrite enum_elem. }
  eexists. split; [exact Er|]. simpl. fold ds. fold dc. split_and!.
  - rewrite Hkeys. apply enum_NoDup.
  - intros d. rewrite Hget. case_decide; [|done].
    unfold ds. by rewrite list_count_fmap.
  - intros d c. rewrite Hget. case_decide as Hd; [|done].
    intros [= <-]. by apply list_count_pos.
  - apply py_max_first in Emost as (p & q & E & H1 & H2).
    assert (Hin : most ∈ ds).
    { assert (most ∈ enum set_iter ds) as Hm'.
      { rewrite E. apply elem_of_app. right. left. }
      by apply enum_elem in Hm'. }
    exists (list_count most ds). split.
    + by rewrite Hget, decide_True.
    + intros d c. rewrite Hget. case_decide as Hd; [|done]. intros [= <-].
      assert (Hd' : d ∈ enum set_iter ds) by (by apply enum_elem).
      rewrite E in Hd'.
      assert (Hm : default 0 (dict_get most dc) = list_count most ds).
      { by rewrite Hget, decide_True. }
      assert (Hdd : default 0 (dict_get d dc) = list_count d ds).
      { by rewrite Hget, decide_True. }
      apply elem_of_app in Hd' as [Hd'|Hd'].
      * apply (proj1 (Forall_forall _ _) H1) in Hd'. simpl in Hd'. lia.
      * apply elem_of_cons in Hd' as [->|Hd']; [done|].
        apply (proj1 (Forall_forall _ _) H2) in Hd'. simpl in Hd'. lia.
Qed.

Lemma degree_distribution_keys_witness :
  dict_keys (_adj edge_and_isolated) = _node edge_and_isolated ∧
  _node edge_and_isolated ≠ [] ∧
  ∃ r, plot_degree_distribution first_seen edge_and_isolated = inr r ∧
       NoDup (dict_keys (degree_count r)) ∧
       (∀ d, dict_get d (degree_count r) =
             if decide (d ∈ degree_sequence r)
             then Some (length (filter (λ n, degree_nat edge_and_isolated n = d)
                                  (_node edge_and_isolated)))
             else None) ∧
       (∀ d c, dict_get d (degree_count r) = Some c → 1 ≤ c) ∧
       ∃ cmax, dict_get (most_common_degree r) (degree_count r) = Some cmax ∧
               ∀ d c, dict_get d (degree_count r) = Some c → c ≤ cmax.
Proof.
  assert (H1 : dict_keys (_adj edge_and_isolated) = _node edge_and_isolated)
    by reflexivity.
  assert (H2 : _node edge_and_isolated ≠ []) by discriminate.
  split; [exact H1|]. split; [exact H2|].
  exact (degree_distribution_keys first_seen edge_and_isolated H1 H2).
Defined.

Lemma Built_node_not_nil df G : Built df G → all_characters df ≠ [] → _node G ≠ [].
Proof.
  intros HB Hne Hnil. apply Built_nodes in HB. rewrite Hnil in HB.
  by apply Permutation_nil_l in HB.
Qed.

Lemma sum_list_lower (l : list nat) (k : nat) :
  Forall (λ d, k ≤ d) l → k * length l ≤ sum_list l.
Proof. induction 1 as [|d l Hd _ IH]; simpl; lia. Qed.

(** X8. When the table has at least one character in a row with a chapter
    (and the builder returns), the metrics on the builder's graph succeed,
    and the reported number of nodes is the number of distinct such
    characters. *)
Theorem metrics_succeed_on_built_graph unique set_iter df :
  buildable df → all_characters df ≠ [] →
  ∃ G r, create_data_for_character_appearance_network unique df = inr G ∧
         plot_degree_distribution set_iter G = inr r ∧
         total_nodes r = length (all_characters df) ∧
         length (degree_sequence r) = total_nodes r.
Proof.
  intros Hb Hne. destruct (builder_ok unique df Hb) as (G & EG & HB).
  pose proof HB as (HG & HN & HE).
  destruct (plot_spec set_iter G (wf_keys _ _ HG) (Built_node_not_nil _ _ HB Hne))
    as (r & Er & Hds & _ & Htn & _).
  exists G, r. split_and!; try done.
  - by rewrite Htn, (Built_nodes _ _ HB).
  - by rewrite Hds, length_fmap.
Qed.

Lemma metrics_succeed_on_built_graph_witness :
  buildable two_chapters ∧ all_characters two_chapters ≠ [] ∧
  ∃ G r, create_data_for_character_appearance_network first_seen two_chapters = inr G ∧
         plot_degree_distribution first_seen G = inr r ∧
         total_nodes r = length (all_characters two_chapters) ∧
         length (degree_sequence r) = total_nodes r.
Proof.
  assert (H1 : buildable two_chapters) by (by apply (bool_decide_unpack _)).
  assert (H2 : all_characters two_chapters ≠ []) by (by vm_compute).
  split; [exact H1|]. split; [exact H2|].
  exact (metrics_succeed_on_built_graph first_seen first_seen two_chapters H1 H2).
Defined.

(** X9. On the builder's graph the self-loops show in every figure of the
    report: each degree is at least 2, the number of edges is at least the
    number of nodes, and the highest-degree node is listed among its own
    neighbours. *)
Theorem self_loops_show_in_report unique set_iter df :
  buildable df → all_characters df ≠ [] →
  ∃ G r, create_data_for_character_appearance_network unique df = inr G ∧
         plot_degree_distribution set_iter G = inr r ∧
         Forall (λ d, 2 ≤ d) (degree_sequence r) ∧
         2 ≤ highest_degree r ∧
         total_nodes r ≤ total_edges r ∧
         highest_degree_node r ∈ highest_degree_neighbors r.
Proof.
  intros Hb Hne. destruct (builder_ok unique df Hb) as (G & EG & HB).
  pose proof HB as (HG & HN & HE).
  pose proof (Built_node_not_nil _ _ HB Hne) as Hnn.
  destruct (plot_report set_iter G (wf_keys _ _ HG) Hnn)
    as (most & hi & top & nbrs & _ & Ehi & Etop & Hnb & Er).
  assert (Hdeg : Forall (λ d, 2 ≤ d) (degree_nat G <$> _node G)).
  { apply Forall_fmap, Forall_forall. intros n Hn. simpl.
    rewrite (proj1 (Built_degree _ _ _ HB Hn)). lia. }
  assert (Htop : top.1 ∈ _node G).
  { destruct (py_max_elem snd ((λ n, (n, degree_nat G n)) <$> _node G))
      as (top' & Etop' & Hin); [by destruct (_node G)|].
    rewrite Etop in Etop'. injection Etop' as <-.
    rewrite <- (degree_view_fst G). by apply list_elem_of_fmap_2. }
  exists G. eexists. split; [done|]. split; [exact Er|].
  cbn [degree_sequence highest_degree total_nodes total_edges
       highest_degree_node highest_degree_neighbors].
  split_and!.
  - done.
  - destruct (py_max_elem id (degree_nat G <$> _node G)) as (hi' & Ehi' & Hin).
    { by destruct (_node G). }
    rewrite Ehi in Ehi'. injection Ehi' as <-.
    by apply (proj1 (Forall_forall _ _) Hdeg).
  - pose proof (sum_list_lower _ 2 Hdeg) as Hs. rewrite length_fmap in Hs.
    apply Nat.div_le_lower_bound; lia.
  - destruct (WF_nbrs _ _ _ HG Htop) as (nbrs' & Hnb' & _ & Hm).
    rewrite Hnb in Hnb'. injection Hnb' as <-.
    apply Hm, HE, co_characters_self, HN, Htop.
Qed.

Lemma self_loops_show_in_report_witness :
  buildable lonely ∧ all_characters lonely ≠ [] ∧
  ∃ G r, create_data_for_character_appearance_network first_seen lonely = inr G ∧
         plot_degree_distribution first_seen G = inr r ∧
         Forall (λ d, 2 ≤ d) (degree_sequence r) ∧
         2 ≤ highest_degree r ∧
         total_nodes r ≤ total_edges r ∧
         highest_degree_node r ∈ highest_degree_neighbors r.
Proof.
  assert (H1 : buildable lonely) by (by apply (bool_decide_unpack _)).
  assert (H2 : all_characters lonely ≠ []) by (by vm_compute).
  split; [exact H1|]. split; [exact H2|].
  exact (self_loops_show_in_report first_seen first_seen lonely H1 H2).
Defined.

(** * Chapter and episode numbers *)

Lemma strip_prefix_app word s : strip_prefix word (word +:+ s) = Some s.
Proof.
  induction word as [|a word IH]; simpl; [by destruct s|].
  by rewrite decide_True.
Qed.

Lemma strip_prefix_Some word s rest :
  strip_prefix word s = Some rest → s = word +:+ rest.
Proof.
  revert s. induction word as [|a word IH]; intros s; simpl.
  - by intros [= ->].
  - destruct s as [|b s]; [done|]. case_decide as Hab; [|done].
    subst b. intros H. by rewrite (IH _ H).
Qed.

Lemma take_digits_app digits s :
  digits_only digits = true → take_digits s = EmptyString →
  take_digits (digits +:+ s) = digits.
Proof.
  intros Hd Hs. induction digits as [|c digits IH]; simpl in *; [done|].
  apply andb_true_iff in Hd as [Hc Hd]. rewrite Hc. f_equal. by apply IH.
Qed.

Lemma take_digits_digits_only s : digits_only (take_digits s) = true.
Proof.
  induction s as [|c s IH]; simpl; [done|].
  destruct (is_digit c) eqn:Hc; simpl; [|done]. by rewrite Hc.
Qed.

Lemma int_of_digits_from_app acc s1 s2 :
  int_of_digits_from acc (s1 +:+ s2) =
  int_of_digits_from (int_of_digits_from acc s1) s2.
Proof. revert acc. induction s1 as [|c s1 IH]; intros acc; simpl; [done|]. apply IH. Qed.

Lemma int_of_digits_from_bounds acc s :
  digits_only s = true → (0 ≤ acc)%Z → (0 ≤ int_of_digits_from acc s)%Z.
Proof.
  revert acc. induction s as [|c s IH]; intros acc Hd Hacc; simpl in *; [done|].
  apply andb_true_iff in Hd as [Hc Hd]. apply IH; [done|].
  unfold is_digit in Hc. apply bool_decide_eq_true in Hc. lia.
Qed.

Lemma digit_char (k : N) :
  (k < 10)%N →
  is_digit (Ascii.ascii_of_N (48 + k)) = true ∧
  (Z.of_nat (Ascii.nat_of_ascii (Ascii.ascii_of_N (48 + k))) - 48 = Z.of_N k)%Z.
Proof.
  intros Hk. unfold is_digit, Ascii.nat_of_ascii.
  rewrite Ascii.N_ascii_embedding by lia. split; [|lia].
  apply bool_decide_eq_true. lia.
Qed.

Lemma dec_fuel_spec fuel n :
  (n < 2 ^ N.of_nat fuel)%N →
  int_of_digits (dec_fuel (S fuel) n) = Z.of_N n ∧
  digits_only (dec_fuel (S fuel) n) = true ∧
  dec_fuel (S fuel) n ≠ EmptyString.
Proof.
  revert n. induction fuel as [|fuel IH]; intros n Hn.
  - assert (n = 0%N) as ->.
    { change (n < 1)%N in Hn. lia. }
    split_and!; by vm_compute.
  - assert (Hmod : (n mod 10 < 10)%N) by (apply N.mod_lt; lia).
    destruct (digit_char (n mod 10) Hmod) as [Hdig Hval].
    change (dec_fuel (S (S fuel)) n) with
      ((if (n <? 10)%N then EmptyString else dec_fuel (S fuel) (n / 10)%N)
       +:+ String (Ascii.ascii_of_N (48 + n mod 10)) EmptyString).
    destruct (n <? 10)%N eqn:Hlt.
    + apply N.ltb_lt in Hlt. simpl. unfold int_of_digits. simpl.
      rewrite Hdig, Hval. rewrite N.mod_small by done. split_and!; [lia|done|done].
    + apply N.ltb_ge in Hlt.
      destruct (IH (n / 10)%N) as (Hv & Hd & Hne).
      { apply N.Div0.div_lt_upper_bound.
        rewrite Nat2N.inj_succ, N.pow_succ_r' in Hn. lia. }
      split_and!.
      * unfold int_of_digits in *. rewrite int_of_digits_from_app, Hv. simpl.
        rewrite Hval. rewrite (N.div_mod n 10) at 3 by lia. lia.
      * clear -Hd Hdig. induction (dec_fuel (S fuel) (n / 10)) as [|c s IHs].
        -- simpl. by rewrite Hdig.
        -- simpl in *. apply andb_true_iff in Hd as [-> Hd]. by apply IHs.
      * by destruct (dec_fuel (S fuel) (n / 10)).
Qed.

Lemma size_nat_gt n : (n < 2 ^ N.of_nat (N.size_nat n))%N.
Proof.
  destruct n as [|p]; [done|]. simpl.
  induction p as [p IH|p IH|]; simpl Pos.size_nat;
    rewrite ?Nat2N.inj_succ, ?N.pow_succ_r'; simpl; lia.
Qed.

Lemma dec_spec n :
  int_of_digits (dec n) = Z.of_N n ∧ digits_only (dec n) = true ∧
  dec n ≠ EmptyString.
Proof. apply dec_fuel_spec, size_nat_gt. Qed.

(** The leftmost match: text without the first character of the word is
    skipped. *)
Lemma str_extract_skip w0 word pre s :
  lacks w0 pre = true →
  str_extract (String w0 word) (pre +:+ s) = str_extract (String w0 word) s.
Proof.
  induction pre as [|c pre IH]; intros Hl; [done|]. simpl in Hl.
  apply andb_true_iff in Hl as [Hc Hl]. apply bool_decide_eq_true in Hc.
  change (String c pre +:+ s) with (String c (pre +:+ s)).
  cbn [str_extract]. unfold match_here at 1. cbn [strip_prefix].
  rewrite decide_False by done. cbn. by apply IH.
Qed.

Lemma str_extract_here word s digits :
  match_here word s = Some digits → str_extract word s = Some digits.
Proof. intros H. destruct s; simpl; by rewrite H. Qed.

Lemma str_extract_None word s :
  str_extract word s = None →
  ∀ pre rest, s = pre +:+ word +:+ rest → take_digits rest = EmptyString.
Proof.
  intros Hn pre. revert s Hn. induction pre as [|c pre IH]; intros s Hn rest ->.
  - change (str_extract word (word +:+ rest) = None) in Hn.
    assert (match_here word (word +:+ rest) = None) as Hm.
    { destruct (match_here word (word +:+ rest)) as [d|] eqn:Hm; [|done].
      by rewrite (str_extract_here _ _ _ Hm) in Hn. }
    unfold match_here in Hm. rewrite strip_prefix_app in Hm. simpl in Hm.
    by case_decide.
  - change (String c pre +:+ word +:+ rest)
      with (String c (pre +:+ word +:+ rest)) in Hn.
    cbn [str_extract] in Hn.
    destruct (match_here word (String c (pre +:+ word +:+ rest))); [done|].
    by eapply IH.
Qed.

Lemma str_extract_Some word s digits :
  str_extract word s = Some digits →
  ∃ pre rest, s = pre +:+ word +:+ digits +:+ rest ∧
              digits_only digits = true ∧ digits ≠ EmptyString.
Proof.
  induction s as [|c s IH]; simpl.
  - destruct (match_here word EmptyString) as [d|] eqn:Hm; [|done].
    intros [= ->]. unfold match_here in Hm.
    destruct (strip_prefix word EmptyString) as [rest|] eqn:Hs; [|done].
    simpl in Hm. case_decide; [done|]. injection Hm as <-.
    apply strip_prefix_Some in Hs. exists EmptyString, EmptyString.
    destruct word, rest; done.
  - destruct (match_here word (String c s)) as [d|] eqn:Hm.
    + intros [= ->]. unfold match_here in Hm.
      destruct (strip_prefix word (String c s)) as [rest|] eqn:Hs; [|done].
      simpl in Hm. case_decide as Hne; [done|]. injection Hm as <-.
      apply strip_prefix_Some in Hs.
      assert (∃ tl, rest = take_digits rest +:+ tl) as [tl Htl].
      { clear. induction rest as [|a rest [tl IH]]; [by exists EmptyString|].
        simpl. destruct (is_digit a).
        - exists tl.
          change (String a rest = String a (take_digits rest +:+ tl)).
          by rewrite <- IH.
        - by exists (String a rest). }
      exists EmptyString, tl. split_and!; [|apply take_digits_digits_only|done].
      simpl. by rewrite <- Htl.
    + intros (pre & rest & -> & Hd & Hne)%IH.
      by exists (String c pre), rest.
Qed.

Lemma take_digits_all digits :
  digits_only digits = true → take_digits digits = digits.
Proof.
  induction digits as [|c digits IH]; simpl; [done|].
  intros [-> Hd]%andb_true_iff. by rewrite IH.
Qed.

Lemma lacks_app c s1 s2 : lacks c (s1 +:+ s2) = lacks c s1 && lacks c s2.
Proof. induction s1 as [|a s1 IH]; simpl; [done|]. by rewrite IH, andb_assoc. Qed.

Lemma digits_only_lacks c s :
  is_digit c = false → digits_only s = true → lacks c s = true.
Proof.
  intros Hc. induction s as [|a s IH]; simpl; [done|].
  intros [Ha Hs]%andb_true_iff. rewrite IH by done.
  rewrite bool_decide_eq_true_2; [done|]. intros ->. congruence.
Qed.

(** Both numbers of a text in the documented format. *)
Lemma extract_appearance_text n m :
  extract_int "Chapter " (Some (appearance_text n m)) =
    (if decide (Z.of_N n < 2 ^ 63)%Z then inr (Some (Z.of_N n))
     else inl InvalidOperationError) ∧
  extract_int "Episode " (Some (appearance_text n m)) =
    (if decide (Z.of_N m < 2 ^ 63)%Z then inr (Some (Z.of_N m))
     else inl InvalidOperationError).
Proof.
  destruct (dec_spec n) as (Hvn & Hdn & Hnn).
  destruct (dec_spec m) as (Hvm & Hdm & Hnm).
  unfold extract_int, appearance_text. cbn [mbind option_bind]. split.
  - rewrite (str_extract_here _ _ (dec n)).
    + unfold cast_int64. by rewrite Hvn.
    + unfold match_here. rewrite strip_prefix_app. cbn [mbind option_bind].
      rewrite take_digits_app by done. by rewrite decide_False.
  - change (" ; Episode " +:+ dec m) with (" ; " +:+ "Episode " +:+ dec m).
    rewrite (str_extract_skip _ _ "Chapter ") by done.
    rewrite (str_extract_skip _ _ (dec n)) by (by apply digits_only_lacks).
    rewrite (str_extract_skip _ _ " ; ") by done.
    rewrite (str_extract_here _ _ (dec m)).
    + unfold cast_int64. by rewrite Hvm.
    + unfold match_here. rewrite strip_prefix_app. cbn [mbind option_bind].
      rewrite take_digits_all by done. by rewrite decide_False.
Qed.

(** The text of the comment in [main], and what the two columns get. *)
Example appearance_text_551_460 :
  appearance_text 551 460 = "Chapter 551 ; Episode 460" ∧
  extract_columns [ {| raw_character := Some "Luffy";
                       raw_appearance := Some "Chapter 551 ; Episode 460" |};
                    {| raw_character := Some "Nami";
                       raw_appearance := Some "Episode 12" |};
                    {| raw_character := Some "Zoro"; raw_appearance := None |} ] =
  inr [ {| ar_character := Some "Luffy"; ar_chapter := Some 551%Z;
           ar_episode := Some 460%Z |};
        {| ar_character := Some "Nami"; ar_chapter := None;
           ar_episode := Some 12%Z |};
        {| ar_character := Some "Zoro"; ar_chapter := None;
           ar_episode := None |} ].
Proof. split; reflexivity. Qed.

(** X10. Round trip of the appearance text: from ["Chapter <N> ; Episode
    <M>"] the two columns get [N] and [M] back, as long as the number fits
    in 64 bits; a larger number makes the strict cast fail. *)
Theorem appearance_round_trip n m :
  extract_int "Chapter " (Some (appearance_text n m)) =
    (if decide (Z.of_N n < 2 ^ 63)%Z then inr (Some (Z.of_N n))
     else inl InvalidOperationError) ∧
  extract_int "Episode " (Some (appearance_text n m)) =
    (if decide (Z.of_N m < 2 ^ 63)%Z then inr (Some (Z.of_N m))
     else inl InvalidOperationError).
Proof. apply extract_appearance_text. Qed.

(** X11. On ASCII text, a number that the extraction returns is written in
    the text right after the word, is never negative and fits in 64 bits;
    null means that no occurrence of the word is followed by a digit; and
    the only error is the failed cast. *)
Theorem extract_int_outcome word s :
  is_ascii s = true →
  match extract_int word (Some s) with
  | inr (Some z) =>
      (0 ≤ z < 2 ^ 63)%Z ∧
      ∃ pre digits rest, s = pre +:+ word +:+ digits +:+ rest ∧
                         digits_only digits = true ∧ digits ≠ EmptyString ∧
                         z = int_of_digits digits
  | inr None =>
      ∀ pre rest, s = pre +:+ word +:+ rest → take_digits rest = EmptyString
  | inl e => e = InvalidOperationError
  end.
Proof.
  intros _. unfold extract_int. cbn [mbind option_bind].
  destruct (str_extract word s) as [digits|] eqn:He; simpl.
  - apply str_extract_Some in He as (pre & rest & -> & Hd & Hne).
    case_decide as Hlt; simpl; [|done]. split.
    + split; [|done]. by apply int_of_digits_from_bounds.
    + by exists pre, digits, rest.
  - by apply str_extract_None.
Qed.

Lemma extract_int_outcome_witness :
  is_ascii "Chapter 551 ; Episode 460" = true ∧
  match extract_int "Episode " (Some "Chapter 551 ; Episode 460") with
  | inr (Some z) =>
      (0 ≤ z < 2 ^ 63)%Z ∧
      ∃ pre digits rest,
        "Chapter 551 ; Episode 460" = pre +:+ "Episode " +:+ digits +:+ rest ∧
        digits_only digits = true ∧ digits ≠ EmptyString ∧
        z = int_of_digits digits
  | inr None =>
      ∀ pre rest, "Chapter 551 ; Episode 460" = pre +:+ "Episode " +:+ rest →
                  take_digits rest = EmptyString
  | inl e => e = InvalidOperationError
  end.
Proof.
  split; [reflexivity|].
  exact (extract_int_outcome "Episode " "Chapter 551 ; Episode 460" eq_refl).
Defined.

(** * The join and the analysis of [main] *)

Lemma joined_group c characters_df chapters_df z :
  c ∈ group (joined characters_df chapters_df) z ↔
  ∃ a, a ∈ characters_df ∧ ar_chapter a = Some z ∧ ar_character a = c.
Proof.
  rewrite elem_of_group. split.
  - intros (r & Hr & Hz & Hc). apply elem_of_joined in Hr as [_ Hr].
    apply elem_of_join_left in Hr as (a & Ha & H). exists a.
    by destruct H as [[_ ->]|(cr & _ & ->)].
  - intros (a & Ha & Hz & Hc).
    destruct (matches (ar_chapter a) chapters_df) as [|cr ms] eqn:Hm.
    + exists (merge a None). split_and!; [|done|done].
      apply elem_of_joined. split; [simpl; by rewrite Hz|].
      apply elem_of_join_left. exists a. split; [done|]. by left.
    + exists (merge a (Some cr)). split_and!; [|done|done].
      apply elem_of_joined. split; [simpl; by rewrite Hz|].
      apply elem_of_join_left. exists a. split; [done|]. right.
      exists cr. split; [|done]. rewrite Hm. left.
Qed.

(** X12. On typed tables (integer chapter, volume and pages columns, on
    which the left join and the casts return a table), the chapter records
    have no influence on the graph: for any two lists of chapter records,
    with repeated or unmatched chapters, the builder on the joined and
    cleaned table gives the same nodes and weights, or the same error. *)
Theorem graph_ignores_chapters_table unique1 unique2 characters_df chapters1 chapters2 :
  result_equiv
    (create_data_for_character_appearance_network unique1
       (joined characters_df chapters1))
    (create_data_for_character_appearance_network unique2
       (joined characters_df chapters2)).
Proof. apply builder_equiv. intros c z. by rewrite !joined_group. Qed.

(** X13. The builder followed by the metrics, as chained at the end of
    [main], on the table handed to the builder. It fails with the
    [ValueError] of networkx when a row with a chapter has no character;
    otherwise it fails with the [ValueError] of [max()] when no row has a
    chapter; otherwise it returns a report whose number of nodes is the
    number of distinct characters of the rows with a chapter. *)
Theorem builder_then_metrics_outcome unique set_iter (df : DataFrame) :
  match create_data_for_character_appearance_network unique df ≫=
          plot_degree_distribution set_iter with
  | inl e =>
      (Exists (λ r, chapter r ≠ None ∧ character r = None) df ∧
       e = ValueError "None cannot be a node") ∨
      (Forall (λ r, chapter r = None) df ∧
       e = ValueError "max() arg is an empty sequence")
  | inr rep =>
      buildable df ∧ Exists (λ r, chapter r ≠ None) df ∧
      total_nodes rep = length (all_characters df)
  end.
Proof.
  destruct (decide (buildable df)) as [Hb|Hb].
  - destruct (builder_ok unique df Hb) as (G & -> & HB). rsimpl.
    pose proof HB as (HG & HN & HE).
    destruct (decide (_node G = [])) as [Hnil|Hnn].
    + rewrite (plot_empty set_iter G Hnil). right. split; [|done].
      apply Forall_forall. intros r Hr.
      destruct (chapter r) as [z|] eqn:Hz; [|done]. exfalso.
      pose proof (proj1 (Forall_forall _ _) Hb r Hr) as Hc. simpl in Hc.
      rewrite Hz in Hc. specialize (Hc ltac:(done)).
      destruct (character r) as [n|] eqn:Hn; [|done].
      assert (n ∈ _node G) as Hin.
      { apply HN, elem_of_all_characters. exists z. apply elem_of_group.
        by exists r. }
      rewrite Hnil in Hin. by apply elem_of_nil in Hin.
    + destruct (plot_spec set_iter G (wf_keys _ _ HG) Hnn)
        as (rep & -> & _ & _ & Htn & _).
      split_and!.
      * done.
      * destruct (_node G) as [|n l] eqn:Hnode; [done|].
        assert (n ∈ all_characters df) as Hin by (apply HN; left).
        apply elem_of_all_characters in Hin as (z & Hin).
        apply elem_of_group in Hin as (r & Hr & Hz & _).
        apply Exists_exists. exists r. split; [done|]. by rewrite Hz.
      * by rewrite Htn, (Built_nodes _ _ HB).
  - rewrite (builder_fail unique df Hb). left. split; [|done].
    apply not_Forall_Exists in Hb; [|apply _].
    eapply Exists_impl; [exact Hb|]. intros r Hr. simpl in Hr.
    destruct (chapter r), (character r); try done; exfalso; apply Hr; done.
Qed.

(** * Grouped statistics *)

Lemma filter_fmap_key {V} (f : option Z → V) (ks : list (option Z)) (z : Z) :
  NoDup ks → Some z ∈ ks →
  filter (λ p : option Z * V, col_eq (Some z) p.1 = Some true)
         ((λ k, (k, f k)) <$> ks) = [(Some z, f (Some z))].
Proof.
  induction 1 as [|k ks Hk Hnd IH]; [by intros ?%elem_of_nil|].
  intros Hin. rewrite fmap_cons, filter_cons. cbn [fst].
  destruct (decide (k = Some z)) as [->|Hne].
  - rewrite decide_True by (by apply col_eq_true; exists z). f_equal.
    apply filter_none. intros p (k' & -> & Hk')%list_elem_of_fmap.
    cbn [fst]. rewrite col_eq_true. intros (z' & [= <-] & ->). done.
  - rewrite decide_False; last first.
    { rewrite col_eq_true. intros (z' & [= <-] & ->). done. }
    apply IH. apply elem_of_cons in Hin. naive_solver.
Qed.

(** Grouping, aggregating and joining back gives every row the aggregate of
    the rows with its key, and a null when its key is null. *)
Lemma join_group {R V} (order : enumerator) (key : R → option Z)
    (agg : list R → V) (df : list R) :
  join_left_on key df (group_by_agg order key agg df) =
  (λ r, (r, (λ z, agg (filter (λ r', key r' = Some z) df)) <$> key r)) <$> df.
Proof.
  unfold join_left_on, group_by_agg.
  set (ks := enum order (key <$> df)).
  assert (Hgen : ∀ l, (∀ r, r ∈ l → r ∈ df) →
    (l ≫= λ r,
       match filter (λ p : option Z * V, col_eq (key r) p.1 = Some true)
               ((λ k, (k, agg (filter (λ r0, key r0 = k) df))) <$> ks) with
       | [] => [(r, None)]
       | ms => (λ p, (r, Some p.2)) <$> ms
       end) =
    (λ r, (r, (λ z, agg (filter (λ r', key r' = Some z) df)) <$> key r)) <$> l).
  { induction l as [|r l IH]; intros Hsub; [done|].
    rewrite fmap_cons, bind_cons, IH by (intros y Hy; apply Hsub; by right).
    destruct (key r) as [z|] eqn:Hz.
    - rewrite (filter_fmap_key (λ k, agg (filter (λ r0, key r0 = k) df))).
      + done.
      + apply enum_NoDup.
      + apply enum_elem, list_elem_of_fmap. exists r. split; [done|].
        apply Hsub. left.
    - rewrite filter_none; [done|]. intros p _. done. }
  by apply Hgen.
Qed.

Lemma count_non_null_all {A B} (f : A → option B) (l : list A) :
  (∀ x, x ∈ l → is_Some (f x)) → count_non_null (f <$> l) = length l.
Proof.
  unfold count_non_null. induction l as [|x l IH]; intros H; [done|].
  destruct (H x) as [y Hy]; [left|]. rewrite fmap_cons. cbn [omap].
  rewrite Hy. simpl. f_equal. apply IH. intros z Hz. apply H. by right.
Qed.

(** X15. The frequency table of pages has one row per distinct value of
    the column; the row of a page count [p] holds the number of chapters
    with [p] pages, which is at least 1. *)
Theorem frequency_of_pages_spec order chapters_df :
  NoDup (calculate_frequency_of_pages order chapters_df).*1 ∧
  (∀ k, k ∈ (calculate_frequency_of_pages order chapters_df).*1 ↔
        k ∈ cr_pages <$> chapters_df) ∧
  (∀ p c, (Some p, c) ∈ calculate_frequency_of_pages order chapters_df ↔
          c = length (filter (λ r, cr_pages r = Some p) chapters_df) ∧ 1 ≤ c).
Proof.
  unfold calculate_frequency_of_pages, group_by_agg.
  set (ks := enum order (cr_pages <$> chapters_df)).
  assert (Hkeys : ((λ k, (k, count_non_null
             (cr_pages <$> filter (λ r, cr_pages r = k) chapters_df))) <$> ks).*1
           = ks).
  { clear. induction ks as [|k ks IH]; [done|]. simpl. by f_equal. }
  assert (Hcount : ∀ p, count_non_null
            (cr_pages <$> filter (λ r, cr_pages r = Some p) chapters_df) =
            length (filter (λ r, cr_pages r = Some p) chapters_df)).
  { intros p. apply count_non_null_all.
    intros x [Hx _]%list_elem_of_filter. by rewrite Hx. }
  split_and!.
  - rewrite Hkeys. apply enum_NoDup.
  - intros k. rewrite Hkeys. apply enum_elem.
  - intros p c. rewrite list_elem_of_fmap. split.
    + intros (k & [= <- ->] & Hk). rewrite Hcount. split; [done|].
      apply enum_elem, list_elem_of_fmap in Hk as (r & Hr & Hin).
      assert (r ∈ filter (λ r, cr_pages r = Some p) chapters_df) as Hf.
      { by apply list_elem_of_filter. }
      destruct (filter (λ r, cr_pages r = Some p) chapters_df);
        [by apply elem_of_nil in Hf|simpl; lia].
    + intros [-> Hc]. exists (Some p). rewrite Hcount. split; [done|].
      apply enum_elem.
      destruct (filter (λ r, cr_pages r = Some p) chapters_df) as [|r l] eqn:Hf;
        [simpl in Hc; lia|].
      assert (r ∈ filter (λ r, cr_pages r = Some p) chapters_df) as Hin
        by (rewrite Hf; left).
      apply list_elem_of_filter in Hin as [Hp Hin].
      apply list_elem_of_fmap. by exists r.
Qed.

(** X16. For a table without null characters,
    [average_number_of_characters_per_chapter] returns one row per input
    row: a row with a chapter carries the number of rows of that chapter,
    a row without chapter carries a null. *)
Theorem characters_per_chapter_spec order characters_df :
  Forall (λ a, ar_character a ≠ None) characters_df →
  average_number_of_characters_per_chapter order characters_df ≡ₚ
  (λ a, (a, (λ z, length (filter (λ b, ar_chapter b = Some z) characters_df))
              <$> ar_chapter a)) <$> characters_df.
Proof.
  intros Hc. unfold average_number_of_characters_per_chapter.
  rewrite join_group. apply Permutation_refl'. apply Forall_fmap_ext_1.
  apply Forall_forall. intros a _. f_equal. destruct (ar_chapter a) as [z|]; [|done].
  simpl. f_equal. apply count_non_null_all.
  intros b [_ Hb]%list_elem_of_filter.
  apply not_eq_None_Some. by apply (proj1 (Forall_forall _ _) Hc).
Qed.

Lemma characters_per_chapter_spec_witness :
  Forall (λ a, ar_character a ≠ None) [luffy; nami; luffy] ∧
  average_number_of_characters_per_chapter first_seen [luffy; nami; luffy] ≡ₚ
  (λ a, (a, (λ z, length (filter (λ b, ar_chapter b = Some z) [luffy; nami; luffy]))
              <$> ar_chapter a)) <$> [luffy; nami; luffy].
Proof.
  assert (H : Forall (λ a, ar_character a ≠ None) [luffy; nami; luffy])
    by (by repeat constructor).
  split; [exact H|]. exact (characters_per_chapter_spec first_seen _ H).
Defined.

(** The means, row by row. *)
Lemma average_pages_rows order chapters_df :
  average_number_of_pages_per_chapter order chapters_df ≡ₚ
    (λ r, (r, cr_chapter r ≫= λ z,
                mean (cr_pages <$> filter (λ r', cr_chapter r' = Some z) chapters_df)))
      <$> chapters_df ∧
  average_number_of_pages_per_volume order chapters_df ≡ₚ
    (λ r, (r, cr_volume r ≫= λ z,
                mean (cr_pages <$> filter (λ r', cr_volume r' = Some z) chapters_df)))
      <$> chapters_df.
Proof.
  unfold average_number_of_pages_per_chapter, average_number_of_pages_per_volume.
  rewrite !join_group, <- !list_fmap_compose. split.
  - apply Permutation_refl'. apply Forall_fmap_ext_1, Forall_forall.
    intros r _. simpl. f_equal. destruct (cr_chapter r); [|done]. simpl.
    by destruct (mean _).
  - apply Permutation_refl'. apply Forall_fmap_ext_1, Forall_forall.
    intros r _. simpl. f_equal. destruct (cr_volume r); [|done]. simpl.
    by destruct (mean _).
Qed.

(** X17. [average_number_of_pages_per_chapter] and
    [average_number_of_pages_per_volume] return one row per input row: a
    row carries the mean of the non-null pages of the rows with its chapter
    (its volume), and a null when its key is null or no such page count
    exists. *)
Theorem average_pages_spec order chapters_df :
  average_number_of_pages_per_chapter order chapters_df ≡ₚ
    (λ r, (r, cr_chapter r ≫= λ z,
                mean (cr_pages <$> filter (λ r', cr_chapter r' = Some z) chapters_df)))
      <$> chapters_df ∧
  average_number_of_pages_per_volume order chapters_df ≡ₚ
    (λ r, (r, cr_volume r ≫= λ z,
                mean (cr_pages <$> filter (λ r', cr_volume r' = Some z) chapters_df)))
      <$> chapters_df.
Proof. apply average_pages_rows. Qed.

Lemma filter_unique_key {R} (key : R → option Z) (df : list R) (r : R) (z : Z) :
  NoDup (key <$> df) → r ∈ df → key r = Some z →
  filter (λ r', key r' = Some z) df = [r].
Proof.
  induction df as [|x df IH]; [by intros _ ?%elem_of_nil|].
  rewrite fmap_cons. intros [Hx Hnd]%NoDup_cons Hin Hz. rewrite filter_cons.
  destruct (decide (key x = Some z)) as [Hxz|Hxz].
  - assert (r = x) as ->.
    { apply elem_of_cons in Hin as [->|Hin]; [done|]. exfalso. apply Hx.
      rewrite Hxz, <- Hz. by apply list_elem_of_fmap_2. }
    f_equal. apply filter_none. intros y Hy Hyz. apply Hx.
    rewrite Hxz, <- Hyz. by apply list_elem_of_fmap_2.
  - apply IH; [done| |done]. apply elem_of_cons in Hin as [->|Hin]; [|done].
    congruence.
Qed.

(** X18. When no two rows have the same chapter number, the per-chapter
    "average" of a row is its own page count. *)
Theorem average_pages_per_chapter_unique order chapters_df :
  NoDup (cr_chapter <$> chapters_df) →
  average_number_of_pages_per_chapter order chapters_df ≡ₚ
  (λ r, (r, cr_chapter r ≫= λ _, (λ p, (p # 1)%Q) <$> cr_pages r)) <$> chapters_df.
Proof.
  intros Hnd. rewrite (proj1 (average_pages_rows order chapters_df)).
  apply Permutation_refl'. apply Forall_fmap_ext_1, Forall_forall.
  intros r Hr. simpl. f_equal. destruct (cr_chapter r) as [z|] eqn:Hz; [|done].
  simpl. rewrite (filter_unique_key cr_chapter chapters_df r z) by done.
  unfold mean. simpl. destruct (cr_pages r) as [p|]; simpl; [|done].
  by rewrite Z.add_0_r.
Qed.

Lemma average_pages_per_chapter_unique_witness :
  NoDup (cr_chapter <$> sample_chapters) ∧
  average_number_of_pages_per_chapter first_seen sample_chapters ≡ₚ
  (λ r, (r, cr_chapter r ≫= λ _, (λ p, (p # 1)%Q) <$> cr_pages r))
    <$> sample_chapters.
Proof.
  assert (H : NoDup (cr_chapter <$> sample_chapters)).
  { by apply (bool_decide_unpack _). }
  split; [exact H|].
  exact (average_pages_per_chapter_unique first_seen sample_chapters H).
Defined.
